(** * goweb: request dispatch core

    A shallow embedding of the dispatch core of the goweb package
    (context.go, router.go and the engine file holding [ServeHTTP] and
    [safelyHandle]) together with the properties of its chain runner,
    its two recovery scopes, its route table, its route groups and its
    admission gate; and of package log the response recorder and the
    functions that read the user agent.

    Conventions.
    - A [*Context] is a pointer that every handler mutates; here the
      context is threaded through every call and returned with the
      outcome.  A panic carries the context as it was when raised.
    - Handlers are Go closures.  What a closure can do to the chain is
      call [Next], call [Abort], write to [c.Writer] or panic; a handler
      body is given as the list of these statements, in program order.
      The two middlewares of context.go are handlers of their own.
    - [trace] is the observation log of one request: which handler was
      entered at which cursor, which writes reached which writer, when
      the hooks ran.  [trace] and the allocation counter [gz_next] are
      the two fields the Go struct does not have; its fields [Engine],
      [CT], [Signal], [Data] and [FuncMap] are not read by the dispatch
      and are left out.
    - [Next] calls handlers that call [Next]: the runner takes fuel, and
      the theorems say how much is enough.
    - Calls of [engine.Logger.Println] only feed the log sink and are
      left out. *)

From Stdlib Require Import ZArith Lia Ascii.
From stdpp Require Import base list gmap strings.

Local Open Scope Z_scope.

(** ** Machine integers *)

(** [int] is 64 bits wide: the literal of [Abort] does not fit in 32. *)
Definition int_min : Z := - 2 ^ 63.
Definition int_max : Z := 2 ^ 63 - 1.

Definition wrap_int (z : Z) : Z := (z + 2 ^ 63) mod 2 ^ 64 - 2 ^ 63.

(** The cursor value written by [Abort]. *)
Definition sentinel : Z := 10000000000000.

(** ** Requests, writers, events *)

Record Request := {
  Method : string;
  Path : string;                 (* Request.URL.Path *)
  AcceptEncoding : string;       (* Request.Header.Get("Accept-Encoding") *)
  ParseForm : option string      (* the error of Request.ParseForm(), if any *)
}.

(** [c.Writer] is an interface value: the writer handed to [ServeHTTP]
    or a [*gzipWriter] around an earlier writer.  [gz] names the
    [gzip.Writer] allocated by [wrapGzip]. *)
Inductive ResponseWriter :=
| Transport
| GzipWriter (gz : nat) (under : ResponseWriter).

Inductive event :=
| EvPre                                     (* Pre_Process entered *)
| EvPost (err : option string)              (* Post_Process entered, with c.Err *)
| EvEnter (i : Z)                           (* c.handlers[i](c) *)
| EvAbort (cursor : Z)                      (* c.Abort() called at this cursor *)
| EvWrite (w : ResponseWriter) (b : string) (* w.Write(b) *)
| EvWriteHeader (w : ResponseWriter) (status : Z)
| EvSetHeader (k v : string)                (* Header().Set(k, v) *)
| EvGzClose (gz : nat).                     (* gz.Close() *)

(** ** Handlers *)

Inductive stmt :=
| SNext                 (* c.Next() *)
| SAbort                (* c.Abort() *)
| SPanic (v : string)   (* panic(v); v is the text of fmt.Sprintf("%s", v) *)
| SWrite (b : string).  (* c.Writer.Write(b) *)

Inductive HandlerFunc :=
| HUser (body : list stmt)
| HGzip                 (* GzipMiddleware *)
| HCompression.         (* CompressionMiddleware *)

(** A [HandlersChain] is a slice: [None] is the nil slice. *)
Definition HandlersChain := option (list HandlerFunc).

Definition chain_list (hs : HandlersChain) : list HandlerFunc :=
  match hs with Some l => l | None => [] end.

Definition len (hs : HandlersChain) : Z := Z.of_nat (length (chain_list hs)).

(** ** The execution context *)

Record Context := {
  Request_ : Request;
  Writer : ResponseWriter;
  index : Z;
  handlers : HandlersChain;
  Err : option string;
  trace : list event;
  gz_next : nat                  (* gzip writers allocated so far *)
}.

Definition set_index (i : Z) (c : Context) : Context :=
  {| Request_ := Request_ c; Writer := Writer c; index := i;
     handlers := handlers c; Err := Err c; trace := trace c;
     gz_next := gz_next c |}.

Definition set_Writer (w : ResponseWriter) (c : Context) : Context :=
  {| Request_ := Request_ c; Writer := w; index := index c;
     handlers := handlers c; Err := Err c; trace := trace c;
     gz_next := gz_next c |}.

Definition set_Err (e : option string) (c : Context) : Context :=
  {| Request_ := Request_ c; Writer := Writer c; index := index c;
     handlers := handlers c; Err := e; trace := trace c;
     gz_next := gz_next c |}.

Definition set_handlers (hs : HandlersChain) (c : Context) : Context :=
  {| Request_ := Request_ c; Writer := Writer c; index := index c;
     handlers := hs; Err := Err c; trace := trace c;
     gz_next := gz_next c |}.

Definition log (e : event) (c : Context) : Context :=
  {| Request_ := Request_ c; Writer := Writer c; index := index c;
     handlers := handlers c; Err := Err c; trace := trace c ++ [e];
     gz_next := gz_next c |}.

Definition alloc_gz (c : Context) : Context :=
  {| Request_ := Request_ c; Writer := Writer c; index := index c;
     handlers := handlers c; Err := Err c; trace := trace c;
     gz_next := S (gz_next c) |}.

(** What a call on a [*Context] ends with. *)
Inductive Outcome :=
| Returned (c : Context)
| Panicked (v : string) (c : Context)
| OutOfFuel.

Definition bind (o : Outcome) (k : Context → Outcome) : Outcome :=
  match o with
  | Returned c => k c
  | Panicked v c => Panicked v c
  | OutOfFuel => OutOfFuel
  end.

(** [defer f()] around a call: [f] runs when the call returns and when
    it panics, and the panic goes on after it. *)
Definition defer (f : Context → Context) (o : Outcome) : Outcome :=
  match o with
  | Returned c => Returned (f c)
  | Panicked v c => Panicked v (f c)
  | OutOfFuel => OutOfFuel
  end.

(** ** context.go *)

(** [c.index++] *)
Definition incr_index (c : Context) : Context :=
  set_index (wrap_int (index c + 1)) c.

(** [c.handlers[i]]; out of range is a run-time panic. *)
Definition handler_at (hs : HandlersChain) (i : Z) : option HandlerFunc :=
  if i <? 0 then None else chain_list hs !! Z.to_nat i.

Definition Abort (c : Context) : Context :=
  set_index sentinel (log (EvAbort (index c)) c).

Definition Write (b : string) (c : Context) : Context :=
  log (EvWrite (Writer c) b) c.

Definition WriteHeader (status : Z) (c : Context) : Context :=
  log (EvWriteHeader (Writer c) status) c.

(** [strings.Contains] *)
Fixpoint Contains (s substr : string) : bool :=
  String.prefix substr s ||
  match s with
  | EmptyString => false
  | String _ s' => Contains s' substr
  end.

(** [gw.Close()]: closes the gzip writer, never panics. *)
Definition gzipWriter_Close (gz : nat) (c : Context) : Context :=
  log (EvGzClose gz) c.

(** [wrapGzip]: the context with the wrapper installed, and the cleanup
    closure.  The closure closes [gw]; it does not assign [c.Writer]. *)
Definition wrapGzip (c : Context) : Context * (Context → Context) :=
  let c1 := log (EvSetHeader "Content-Encoding" "gzip") c in
  let gz := gz_next c1 in
  let gw := GzipWriter gz (Writer c1) in
  (set_Writer gw (alloc_gz c1), gzipWriter_Close gz).

Section Handlers.
(** [c.Next] as seen from inside a handler. *)
Variable next : Context → Outcome.

Fixpoint run_body (b : list stmt) (c : Context) : Outcome :=
  match b with
  | [] => Returned c
  | SNext :: b' => bind (next c) (run_body b')
  | SAbort :: b' => run_body b' (Abort c)
  | SPanic v :: _ => Panicked v c
  | SWrite x :: b' => run_body b' (Write x c)
  end.

Definition GzipMiddleware (c : Context) : Outcome :=
  if negb (Contains (AcceptEncoding (Request_ c)) "gzip") then
    next c
  else
    let '(c1, cleanup) := wrapGzip c in
    defer cleanup (next c1).

Definition CompressionMiddleware (c : Context) : Outcome :=
  let ae := AcceptEncoding (Request_ c) in
  if Contains ae "gzip" then
    let '(c1, cleanup) := wrapGzip c in
    defer cleanup (next c1)
  else
    next c.

Definition call (h : HandlerFunc) (c : Context) : Outcome :=
  match h with
  | HUser body => run_body body c
  | HGzip => GzipMiddleware c
  | HCompression => CompressionMiddleware c
  end.
End Handlers.

(** The [for] loop of [Next], entered after the first [c.index++].
    One unit of fuel per handler entered along a call path. *)
Fixpoint Next_loop (fuel : nat) (c : Context) : Outcome :=
  match fuel with
  | O => OutOfFuel
  | S fuel' =>
      if index c <? len (handlers c) then
        match handler_at (handlers c) (index c) with
        | None => Panicked "runtime error: index out of range" c
        | Some h =>
            bind (call (λ c', Next_loop fuel' (incr_index c')) h
                       (log (EvEnter (index c)) c))
                 (λ c', Next_loop fuel' (incr_index c'))
        end
      else Returned c
  end.

Definition Next (fuel : nat) (c : Context) : Outcome :=
  Next_loop fuel (incr_index c).

(** ** The engine: route table, hooks, permit pool *)

(** A compiled [*regexp.Regexp], by its [MatchString]. *)
Record Regexp := { MatchString : string → bool }.

Record node := {
  path : string;
  regexp : option Regexp;        (* nil for a literal route *)
  node_handlers : HandlersChain  (* the field handlers *)
}.

Record methodTree := { method : string; root : node }.

(** A buffered [chan int]. *)
Record chan := { cap : nat; buf : list Z }.

Definition chan_send (x : Z) (ch : chan) : chan :=
  {| cap := cap ch; buf := buf ch ++ [x] |}.

Definition chan_recv (ch : chan) : chan :=
  {| cap := cap ch; buf := tail (buf ch) |}.


(** The widget manager's [HandlerWidget] is not part of the core: its
    two methods are taken as handler bodies. *)
Record Engine := {
  trees : list methodTree;
  ConcurrenceNumSem : chan;
  Pre_Process : list stmt;
  Post_Process : list stmt
}.

(** [Default()]: no routes, five permits. *)
Definition Default (pre post : list stmt) : Engine :=
  {| trees := [];
     ConcurrenceNumSem := {| cap := 5; buf := [] |};
     Pre_Process := pre;
     Post_Process := post |}.

Definition node_accepts (n : node) (p : string) : bool :=
  String.eqb (path n) p ||
  match regexp n with
  | Some re => MatchString re p
  | None => false
  end.

(** The scan of [ServeHTTP] over [engine.trees]. *)
Fixpoint resolve (ts : list methodTree) (m p : string) : HandlersChain :=
  match ts with
  | [] => None
  | v :: ts' =>
      if node_accepts (root v) p then
        if String.eqb (method v) m then node_handlers (root v)
        else resolve ts' m p
      else resolve ts' m p
  end.

(** ** safelyHandle *)

Definition run_hook (fuel : nat) (body : list stmt) (c : Context) : Outcome :=
  run_body (Next fuel) body c.

(** The function body proper, below the two [defer]s. *)
Definition handle_body (fuel : nat) (engine : Engine) (c : Context) : Outcome :=
  bind (run_hook fuel (Pre_Process engine) (log EvPre c))
    (λ c,
       match handlers c with
       | None => Returned (WriteHeader 404 (set_Err (Some "page not found") c))
       | Some _ =>
           match ParseForm (Request_ c) with
           | Some err => Panicked err c
           | None => Next fuel c
           end
       end).

(** The second [defer] (it runs first): recover, record, post-process. *)
Definition inner_scope (fuel : nat) (engine : Engine) (o : Outcome) : Outcome :=
  match o with
  | Returned c =>
      run_hook fuel (Post_Process engine) (log (EvPost (Err c)) c)
  | Panicked v c =>
      let c := set_Err (Some v) c in
      run_hook fuel (Post_Process engine) (log (EvPost (Err c)) c)
  | OutOfFuel => OutOfFuel
  end.

(** The first [defer] (it runs last): recover and write the description. *)
Definition outer_scope (o : Outcome) : Outcome :=
  match o with
  | Returned c => Returned c
  | Panicked v c => Returned (Write v c)
  | OutOfFuel => OutOfFuel
  end.

Definition safelyHandle (fuel : nat) (engine : Engine) (c : Context) : Outcome :=
  outer_scope (inner_scope fuel engine (handle_body fuel engine c)).

(** ** ServeHTTP *)

(** Which case of the [select] went through. *)
Inductive select_case :=
| SemSend        (* case engine.ConcurrenceNumSem <- 1 *)
| TimeoutRecv.   (* case <-timeout *)

Definition new_context (req : Request) : Context :=
  {| Request_ := req; Writer := Transport; index := -1; handlers := None;
     Err := None; trace := []; gz_next := 0 |}.

(** The context handed to [safelyHandle]: the cursor is at -1 and the
    chain is what the scan of the route table found.  ([CT], [Signal],
    [Data] and [FuncMap] play no part in the dispatch.) *)
Definition dispatch_context (engine : Engine) (req : Request) : Context :=
  let handlers := resolve (trees engine) (Method req) (Path req) in
  set_handlers handlers (new_context req).

(** [sel] is the case of the [select] that went through.  The result
    is the permit pool afterwards and how the call ended. *)
Definition ServeHTTP (fuel : nat) (engine : Engine) (req : Request)
    (sel : select_case) : chan * Outcome :=
  match sel with
  | SemSend =>
      let sem := chan_send 1 (ConcurrenceNumSem engine) in
      match safelyHandle fuel engine (dispatch_context engine req) with
      | Returned c => (chan_recv sem, Returned c)
      | o => (sem, o)
      end
  | TimeoutRecv =>
      (ConcurrenceNumSem engine,
       Returned (Write "server overload" (new_context req)))
  end.

(** ** Reading a trace *)

Definition entered (t : list event) : list Z :=
  omap (λ e, match e with EvEnter i => Some i | _ => None end) t.

Definition writes (t : list event) : list string :=
  omap (λ e, match e with EvWrite _ b => Some b | _ => None end) t.

Definition is_post (e : event) : bool :=
  match e with EvPost _ => true | _ => false end.

Definition is_enter (e : event) : bool :=
  match e with EvEnter _ => true | _ => false end.

(** The context a call leaves behind. *)
Definition final (o : Outcome) : option Context :=
  match o with
  | Returned c => Some c
  | Panicked _ c => Some c
  | OutOfFuel => None
  end.

Definition outcome_trace (o : Outcome) : list event :=
  match o with
  | Returned c => trace c
  | Panicked _ c => trace c
  | OutOfFuel => []
  end.

(** ** router.go: route groups

    [Handlers] is a slice: a pointer to a backing array, a length and a
    capacity.  [append] writes into the backing array when the capacity
    allows and allocates a new array otherwise, so two slices on one
    array could overwrite each other's elements.  The store holds the
    backing arrays, the [Handlers] field of every [*RouterGroup] and
    [engine.trees]. *)

Record slice := { arr : option nat; slen : nat; scap : nat }.

(** [HandlersChain(nil)] *)
Definition nil_slice : slice := {| arr := None; slen := 0; scap := 0 |}.

(** An element of [engine.trees]. *)
Record entry := {
  e_method : string;
  e_path : string;
  e_regexp : option Regexp;
  e_handlers : slice
}.

(** Of a backing array the store keeps the cells written so far. *)
Record Store := {
  arrays : gmap nat (list HandlerFunc);   (* backing arrays, by address *)
  fresh : nat;                            (* the next address *)
  groups : gmap nat slice;                (* group.Handlers of each group *)
  next_group : nat;
  table : list entry                      (* engine.trees *)
}.

(** The elements of a slice. *)
Definition view (h : gmap nat (list HandlerFunc)) (s : slice) : list HandlerFunc :=
  match arr s with
  | Some a => take (slen s) (default [] (h !! a))
  | None => []
  end.

Definition group_handlers (st : Store) (g : nat) : slice :=
  default nil_slice (groups st !! g).

Definition prefix_of (st : Store) (g : nat) : list HandlerFunc :=
  view (arrays st) (group_handlers st g).

Definition chains (st : Store) : list (list HandlerFunc) :=
  map (λ e, view (arrays st) (e_handlers e)) (table st).

Definition set_arrays (h : gmap nat (list HandlerFunc)) (st : Store) : Store :=
  {| arrays := h; fresh := fresh st; groups := groups st;
     next_group := next_group st; table := table st |}.

Definition set_group (g : nat) (s : slice) (st : Store) : Store :=
  {| arrays := arrays st; fresh := fresh st; groups := <[g := s]> (groups st);
     next_group := next_group st; table := table st |}.

Section Router.
(** The capacity the runtime gives a grown slice: any policy. *)
Variable growcap : nat → nat → nat.

(** [append(s, xs...)] *)
Definition append (st : Store) (s : slice) (xs : list HandlerFunc) : Store * slice :=
  let n := (slen s + length xs)%nat in
  if decide (n ≤ scap s)%nat then
    match arr s with
    | Some a =>
        let old := default [] (arrays st !! a) in
        (set_arrays (<[a := take (slen s) old ++ xs ++ drop n old]> (arrays st)) st,
         {| arr := Some a; slen := n; scap := scap s |})
    | None => (st, s)
    end
  else
    let a := fresh st in
    ({| arrays := <[a := view (arrays st) s ++ xs]> (arrays st);
        fresh := S a; groups := groups st; next_group := next_group st;
        table := table st |},
     {| arr := Some a; slen := n; scap := growcap (scap s) n |}).

(** [group.Group()] *)
Definition Group (g : nat) (st : Store) : Store * nat :=
  let '(st1, s) := append st nil_slice (prefix_of st g) in
  let child := next_group st1 in
  ({| arrays := arrays st1; fresh := fresh st1;
      groups := <[child := s]> (groups st1);
      next_group := S child; table := table st1 |}, child).

(** [group.Use(middleware...)] *)
Definition Use (g : nat) (middleware : list HandlerFunc) (st : Store) : Store :=
  let '(st1, s) := append st (group_handlers st g) middleware in
  set_group g s st1.

(** The common shape of [GET], [POST], [PUT], [DELETE] and [RegexMatch]. *)
Definition add_route (g : nat) (m p : string) (re : option Regexp)
    (handler : HandlerFunc) (st : Store) : Store :=
  let '(st1, s1) := append st nil_slice (prefix_of st g) in
  let '(st2, s2) := append st1 s1 [handler] in
  {| arrays := arrays st2; fresh := fresh st2; groups := groups st2;
     next_group := next_group st2;
     table := table st2 ++ [{| e_method := m; e_path := p; e_regexp := re;
                               e_handlers := s2 |}] |}.

Definition GET (g : nat) (p : string) (h : HandlerFunc) :=
  add_route g "GET" p None h.
Definition POST (g : nat) (p : string) (h : HandlerFunc) :=
  add_route g "POST" p None h.
Definition PUT (g : nat) (p : string) (h : HandlerFunc) :=
  add_route g "PUT" p None h.
Definition DELETE (g : nat) (p : string) (h : HandlerFunc) :=
  add_route g "DELETE" p None h.
Definition RegexMatch (g : nat) (re : Regexp) (h : HandlerFunc) :=
  add_route g "GET" "" (Some re) h.

(** A call of the registration surface. *)
Inductive op :=
| OpGroup (g : nat)
| OpUse (g : nat) (middleware : list HandlerFunc)
| OpGET (g : nat) (p : string) (h : HandlerFunc)
| OpPOST (g : nat) (p : string) (h : HandlerFunc)
| OpPUT (g : nat) (p : string) (h : HandlerFunc)
| OpDELETE (g : nat) (p : string) (h : HandlerFunc)
| OpRegexMatch (g : nat) (re : Regexp) (h : HandlerFunc).

Definition receiver (o : op) : nat :=
  match o with
  | OpGroup g | OpUse g _ | OpGET g _ _ | OpPOST g _ _ | OpPUT g _ _
  | OpDELETE g _ _ | OpRegexMatch g _ _ => g
  end.

(** A method can only be called on a group that exists. *)
Definition step (st : Store) (o : op) : Store :=
  if decide (is_Some (groups st !! receiver o)) then
    match o with
    | OpGroup g => (Group g st).1
    | OpUse g mws => Use g mws st
    | OpGET g p h => GET g p h st
    | OpPOST g p h => POST g p h st
    | OpPUT g p h => PUT g p h st
    | OpDELETE g p h => DELETE g p h st
    | OpRegexMatch g re h => RegexMatch g re h st
    end
  else st.

Definition run (ops : list op) (st : Store) : Store := foldl step st ops.

Definition uses (g : nat) (o : op) : bool :=
  match o with
  | OpUse g' _ => bool_decide (g' = g)
  | _ => false
  end.
End Router.

(** The store of [Default()]: the engine's own group, with nil
    [Handlers], and no route. *)
Definition empty_store : Store :=
  {| arrays := ∅; fresh := 0; groups := {[ 0%nat := nil_slice ]};
     next_group := 1; table := [] |}.

(** The route table the dispatcher scans. *)
Definition freeze (st : Store) : list methodTree :=
  map (λ e, {| method := e_method e;
               root := {| path := e_path e; regexp := e_regexp e;
                          node_handlers :=
                            match arr (e_handlers e) with
                            | Some _ => Some (view (arrays st) (e_handlers e))
                            | None => None
                            end |} |})
      (table st).

(** The node of [GET], [POST], [PUT] and [DELETE]: [&node{path: ...}]. *)
Definition literal_node (p : string) (hs : HandlersChain) : node :=
  {| path := p; regexp := None; node_handlers := hs |}.

(** The node of [RegexMatch]: [&node{regexp: ...}], whose [path] is the
    zero value. *)
Definition pattern_node (re : Regexp) (hs : HandlersChain) : node :=
  {| path := ""; regexp := Some re; node_handlers := hs |}.

(** ** The admission gate

    Requests run [ServeHTTP] side by side.  What they share is the
    semaphore channel; what matters of each is where it stands: in the
    [select] (with its timeout channel empty or filled), between the
    send on the semaphore and the receive after [safelyHandle], or
    done.  A schedule is a list of moves of single requests. *)







(** ** context.go: the gzip writer and the content type

    [gzipWriter.Write] as far as the response header goes.  Of
    [http.Header] the model keeps the value [Get] returns for a key;
    [DetectContentType] is [net/http]'s. *)

(** [http.Header] *)
Abbreviation Header := (gmap string string).

Definition Header_Get (h : Header) (k : string) : string := default "" (h !! k).

Definition Header_Set (k v : string) (h : Header) : Header := <[k := v]> h.

Section ContentType.
Variable DetectContentType : string → string.

Definition gzipWriter_Write (b : string) (h : Header) : Header :=
  if String.eqb (Header_Get h "Content-Type") "" then
    Header_Set "Content-Type" (DetectContentType b) h
  else h.

Definition gzipWriter_Writes (bs : list string) (h : Header) : Header :=
  foldl (λ h b, gzipWriter_Write b h) h bs.
End ContentType.

(** ** log/log.go: the response recorder

    [httpResponseRecorder] wraps the writer of the context.  The model
    keeps the calls it passes on to that writer. *)

Inductive wcall :=
| WWrite (b : string)
| WWriteHeader (statusCode : Z).

Record httpResponseRecorder := {
  r_writer : list wcall;       (* calls made on the embedded ResponseWriter *)
  r_status : option Z;         (* the field status, a *int *)
  r_size : Z                   (* the field size *)
}.

(** [&httpResponseRecorder{ResponseWriter: orig}] *)
Definition new_recorder : httpResponseRecorder :=
  {| r_writer := []; r_status := None; r_size := 0 |}.

Inductive recorded :=
| RecOk (h : httpResponseRecorder)
| RecPanic (v : string) (h : httpResponseRecorder).

(** [Write]: [n] is the count the embedded writer returns. *)
Definition httpResponseRecorder_Write (b : string) (n : Z)
    (h : httpResponseRecorder) : httpResponseRecorder :=
  {| r_writer := r_writer h ++ [WWrite b]; r_status := r_status h;
     r_size := wrap_int (r_size h + n) |}.

Definition httpResponseRecorder_WriteHeader (statusCode : Z)
    (h : httpResponseRecorder) : recorded :=
  match r_status h with
  | None =>
      RecOk {| r_writer := r_writer h ++ [WWriteHeader statusCode];
               r_status := Some statusCode; r_size := r_size h |}
  | Some _ => RecPanic "the status code has already set" h
  end.

(** What a handler does with the recorder. *)
Inductive rcall :=
| CWrite (b : string) (n : Z)
| CWriteHeader (statusCode : Z).

Fixpoint record (cs : list rcall) (h : httpResponseRecorder) : recorded :=
  match cs with
  | [] => RecOk h
  | CWrite b n :: cs' => record cs' (httpResponseRecorder_Write b n h)
  | CWriteHeader statusCode :: cs' =>
      match httpResponseRecorder_WriteHeader statusCode h with
      | RecOk h' => record cs' h'
      | RecPanic v h' => RecPanic v h'
      end
  end.

(** ** log/log.go: reading the user agent

    Strings are byte strings; an index into a string is below its
    length, so that no [int] of these functions can wrap. *)

(** [strings.Index]: the offset of the first occurrence, or -1. *)
Fixpoint Index (s substr : string) : Z :=
  if String.prefix substr s then 0
  else
    match s with
    | EmptyString => -1
    | String _ s' =>
        let i := Index s' substr in
        if i =? -1 then -1 else i + 1
    end.

(** [s[n:]] *)
Fixpoint skip (n : nat) (s : string) : string :=
  match n, s with
  | O, _ => s
  | S n', String _ s' => skip n' s'
  | S _, EmptyString => EmptyString
  end.

(** [(c >= '0' && c <= '9') || c == '.' || c == '_'] *)
Definition version_byte (c : Ascii.ascii) : bool :=
  ((Ascii.leb "0" c && Ascii.leb c "9") || Ascii.eqb c "." || Ascii.eqb c "_")%char.

(** The loop of [extractTokenVersion]; [rest] is [ua[end:]]. *)
Fixpoint scan_version (rest : string) (end_ : Z) : Z :=
  match rest with
  | String c rest' =>
      if version_byte c then scan_version rest' (end_ + 1) else end_
  | EmptyString => end_
  end.

(** [strings.ReplaceAll(s, old, new)] for strings of one byte. *)
Fixpoint ReplaceAll_byte (s : string) (old new : Ascii.ascii) : string :=
  match s with
  | EmptyString => EmptyString
  | String c s' =>
      String (if Ascii.eqb c old then new else c) (ReplaceAll_byte s' old new)
  end.

Definition extractTokenVersion (token ua : string) : string :=
  let idx := Index ua token in
  if idx =? -1 then ""
  else
    let start := idx + Z.of_nat (String.length token) in
    let end_ := scan_version (skip (Z.to_nat start) ua) start in
    if end_ >? start then
      ReplaceAll_byte
        (String.substring (Z.to_nat start) (Z.to_nat (end_ - start)) ua)
        "_"%char "."%char
    else "".

(** The loop of [extractAnyVersion]. *)
Fixpoint first_version (tokens : list string) (ua : string) : string :=
  match tokens with
  | [] => ""
  | t :: tokens' =>
      let v := extractTokenVersion t ua in
      if negb (String.eqb v "") then v else first_version tokens' ua
  end.

Definition extractAnyVersion (ua : string) : string :=
  first_version
    ["Chrome/"; "Firefox/"; "Safari/"; "OPR/"; "Edg/"; "Edge/"; "Version/";
     "MSIE "; "rv:"] ua.

Definition detectBrowser (ua : string) : string :=
  if Contains ua "OPR/" || Contains ua "Opera" then "Opera"
  else if Contains ua "Edg/" || Contains ua "Edge" then "Edge"
  else if Contains ua "Chrome/" && negb (Contains ua "Chromium") then "Chrome"
  else if Contains ua "Chromium" then "Chromium"
  else if Contains ua "Safari/" && negb (Contains ua "Chrome") then "Safari"
  else if Contains ua "Firefox/" then "Firefox"
  else if Contains ua "MSIE" || Contains ua "Trident/" then "Internet Explorer"
  else "Unknown".

Definition extractVersionForBrowser (name ua : string) : string :=
  if String.eqb name "Opera" then
    let v := extractTokenVersion "OPR/" ua in
    if negb (String.eqb v "") then v else extractTokenVersion "Opera/" ua
  else if String.eqb name "Edge" then
    let v := extractTokenVersion "Edg/" ua in
    if negb (String.eqb v "") then v else extractTokenVersion "Edge/" ua
  else if String.eqb name "Chrome" then extractTokenVersion "Chrome/" ua
  else if String.eqb name "Chromium" then extractTokenVersion "Chromium/" ua
  else if String.eqb name "Safari" then extractTokenVersion "Version/" ua
  else if String.eqb name "Firefox" then extractTokenVersion "Firefox/" ua
  else if String.eqb name "Internet Explorer" then
    let v := extractTokenVersion "MSIE " ua in
    if negb (String.eqb v "") then v else extractTokenVersion "rv:" ua
  else "".

Definition detectBrowserAndVersion (ua : string) : string * string :=
  let name := detectBrowser ua in
  let version := extractVersionForBrowser name ua in
  let version := if String.eqb version "" then extractAnyVersion ua else version in
  (name, version).


Definition botPatterns : list string :=
  ["bot"; "crawler"; "spider"; "scraper"; "curl"; "wget";
   "googlebot"; "bingbot"; "slurp"; "duckduckbot"; "baiduspider";
   "yandexbot"; "facebookexternalhit"; "twitterbot"; "linkedinbot";
   "whatsapp"; "telegrambot"; "slackbot"; "discordbot";
   "applebot"; "sogoubot"; "exabot"; "msiebot"].

Section Lower.
(** [strings.ToLower] *)
Variable ToLower : string → string.

Definition detectBot (ua : string) : bool :=
  existsb (Contains (ToLower ua)) botPatterns.
End Lower.

(** * Definitions used in the statements *)

(** ** Outcomes and runs *)

Definition in_int (z : Z) : Prop := int_min ≤ z ≤ int_max.

Definition holds (I E : Context → Prop) (F : Prop) (o : Outcome) : Prop :=
  match o with
  | Returned c => I c
  | Panicked _ c => E c
  | OutOfFuel => F
  end.

Definition chain_event (e : event) : bool :=
  match e with
  | EvPre | EvPost _ => false
  | _ => true
  end.

(** [c'] comes after [c] in a run of handlers: the chain and the request
    are the same, the cursor is an [int], the trace has grown by events
    of handlers only. *)
Definition follows (c c' : Context) : Prop :=
  handlers c' = handlers c ∧ Request_ c' = Request_ c ∧ in_int (index c') ∧
  ∃ t, trace c' = trace c ++ t ∧ forallb chain_event t = true.

Definition enough_fuel (fuel : nat) (c : Context) : Prop :=
  (1 ≤ fuel)%nat ∧ (0 ≤ index c → len (handlers c) - index c < Z.of_nat fuel).

(** Handlers and hooks have what they need when the chain is below the
    sentinel, the cursor is an [int] and the fuel exceeds the length of
    the chain. *)
Definition ready (fuel : nat) (c : Context) : Prop :=
  len (handlers c) < sentinel ∧ in_int (index c) ∧
  len (handlers c) < Z.of_nat fuel.

(** The context in which the post-dispatch hook starts. *)
Definition recovered (o : Outcome) : option Context :=
  match o with
  | Returned c => Some c
  | Panicked v c => Some (set_Err (Some v) c)
  | OutOfFuel => None
  end.

(** ** Abort *)

Definition is_abort (e : event) : bool :=
  match e with EvAbort _ => true | _ => false end.

Definition aborted (t : list event) : bool := existsb is_abort t.

(** No handler is entered after the first [Abort] of the trace. *)
Fixpoint no_enter_after_abort (t : list event) : bool :=
  match t with
  | [] => true
  | EvAbort _ :: t' => forallb (λ e, negb (is_enter e)) t'
  | _ :: t' => no_enter_after_abort t'
  end.

(** The invariant: once the trace holds an [Abort], the cursor is past
    the chain, or so far below zero that [d] more increments leave it
    negative. *)
Definition abort_inv (hs : HandlersChain) (d : Z) (c : Context) : Prop :=
  handlers c = hs ∧ in_int (index c) ∧
  no_enter_after_abort (trace c) = true ∧
  (aborted (trace c) = true → len hs ≤ index c ∨ index c < - d).

(** ** Chains that neither abort nor panic *)

Definition quiet_stmt (s : stmt) : bool :=
  match s with
  | SNext | SWrite _ => true
  | SAbort | SPanic _ => false
  end.

Definition quiet (h : HandlerFunc) : bool :=
  match h with
  | HUser b => forallb quiet_stmt b
  | HGzip | HCompression => true
  end.

(** Statements of a handler: each can add at most one to the cursor. *)
Definition body_size (h : HandlerFunc) : Z :=
  match h with
  | HUser b => Z.of_nat (length b)
  | HGzip | HCompression => 1
  end.

Fixpoint chain_weight (l : list HandlerFunc) : Z :=
  match l with
  | [] => 0
  | h :: l' => 1 + body_size h + chain_weight l'
  end.

(** Inside handler [i]: either no [Next] has been called yet, or one has
    and the rest of the chain is done, the cursor being at most [X]. *)
Definition inside (hs : HandlersChain) (i n : Z) (E0 : list Z)
    (X : Z) (x : Context) : Prop :=
  handlers x = hs ∧
  ((index x = i ∧ entered (trace x) = E0 ++ [i]) ∨
   (n ≤ index x ≤ X ∧ entered (trace x) = E0 ++ seqZ i (n - i))).

Definition rest_of (c : Context) : list HandlerFunc :=
  drop (Z.to_nat (index c)) (chain_list (handlers c)).

Definition calls_next (h : HandlerFunc) : bool :=
  match h with
  | HUser b => existsb (λ s, match s with SNext => true | _ => false end) b
  | HGzip | HCompression => true
  end.

Definition is_write (s : stmt) : bool :=
  match s with SWrite _ => true | _ => false end.

Definition written (b : list stmt) : list string :=
  omap (λ s, match s with SWrite x => Some x | _ => None end) b.

Definition write_all (bs : list string) (c : Context) : Context :=
  foldl (λ c b, Write b c) c bs.

(** ** Writers *)

(** [w'] is [w] or a stack of gzip writers on top of [w]. *)
Fixpoint wraps (w w' : ResponseWriter) : Prop :=
  w' = w ∨
  match w' with
  | Transport => False
  | GzipWriter _ under => wraps w under
  end.

Fixpoint depth (w : ResponseWriter) : nat :=
  match w with
  | Transport => 0
  | GzipWriter _ under => S (depth under)
  end.

(** ** The route table as it is described *)

Definition registered (n : node) : Prop :=
  (∃ p hs, n = literal_node p hs) ∨ (∃ re hs, n = pattern_node re hs).

(** Acceptance as the route table is described: a literal matcher
    accepts the path equal to it, a pattern matcher the paths its
    expression matches. *)
Definition matcher_accepts (n : node) (p : string) : bool :=
  match regexp n with
  | Some re => MatchString re p
  | None => String.eqb (path n) p
  end.

(** Resolution as described: the chain of the first entry whose method
    is the request's and whose matcher accepts the path. *)
Fixpoint resolve_described (ts : list methodTree) (m p : string) : HandlersChain :=
  match ts with
  | [] => None
  | v :: ts' =>
      if String.eqb (method v) m && matcher_accepts (root v) p
      then node_handlers (root v)
      else resolve_described ts' m p
  end.

(** ** Slices of the store *)

(** A slice of the store: its array is allocated and holds its
    elements; the nil slice has no room. *)
Definition ok_slice (st : Store) (s : slice) : Prop :=
  match arr s with
  | Some a => (a < fresh st)%nat ∧
              (slen s ≤ length (default [] (arrays st !! a)))%nat
  | None => slen s = 0%nat ∧ scap s = 0%nat
  end.

(** Who holds a slice: a group, or an entry of the table. *)
Inductive owner := InGroup (g : nat) | InTable (i : nat).

Definition owned (st : Store) (o : owner) : option slice :=
  match o with
  | InGroup g => groups st !! g
  | InTable i => e_handlers <$> table st !! i
  end.

(** No backing array has two holders. *)
Definition wf (st : Store) : Prop :=
  (∀ o s, owned st o = Some s → ok_slice st s) ∧
  (∀ o1 o2 s1 s2 a,
     owned st o1 = Some s1 → owned st o2 = Some s2 →
     arr s1 = Some a → arr s2 = Some a → o1 = o2) ∧
  (∀ g, is_Some (groups st !! g) → (g < next_group st)%nat).

(** [t] is a slice of the store that does not share the array of [s]. *)
Definition apart (st : Store) (s t : slice) : Prop :=
  ok_slice st t ∧ ∀ a, arr t = Some a → arr s ≠ Some a.

(** What one call leaves as it was: the prefix of every group but the
    receiver of a [Use], and every chain registered so far. *)
Definition frame_of (o : op) (st st' : Store) : Prop :=
  (∀ g, is_Some (groups st !! g) → uses g o = false →
        groups st' !! g = groups st !! g ∧ prefix_of st' g = prefix_of st g) ∧
  (∀ g, is_Some (groups st !! g) → is_Some (groups st' !! g)) ∧
  (∀ i ch, chains st !! i = Some ch → chains st' !! i = Some ch).

(** ** Counting requests *)










(** ** Examples *)

Definition get_slash : Request :=
  {| Method := "GET"; Path := "/"; AcceptEncoding := "gzip, deflate";
     ParseForm := None |}.

Definition route (m p : string) (l : list HandlerFunc) : methodTree :=
  {| method := m;
     root := {| path := p; regexp := None; node_handlers := Some l |} |}.

Definition engine_with (l : list HandlerFunc) (pre post : list stmt) : Engine :=
  {| trees := [route "GET" "/" l];
     ConcurrenceNumSem := {| cap := 5; buf := [] |};
     Pre_Process := pre;
     Post_Process := post |}.

Definition first_context (l : list HandlerFunc) : Context :=
  set_handlers (Some l) (new_context get_slash).

(** One handler that calls [Next] in the middle, the gzip middleware,
    one handler that just returns. *)
Definition mixed_chain : list HandlerFunc :=
  [HUser [SWrite "a"; SNext; SWrite "z"]; HGzip; HUser [SWrite "b"]].

Definition two_writers : list HandlerFunc :=
  [HUser [SWrite "a"]; HUser [SWrite "b"]].

(** A route whose second handler panics after a write. *)
Definition panicking_engine : Engine :=
  engine_with [HGzip; HUser [SWrite "a"; SPanic "boom"]] [] [SWrite "bye"].

(** The first handler aborts and then calls [Next]; the post hook calls
    [Next] once more. *)
Definition aborting_engine : Engine :=
  engine_with [HUser [SAbort; SNext; SWrite "denied"]; HUser [SWrite "secret"]]
              [] [SNext].

(** The only handler panics and the hooks do nothing. *)
Definition silent_engine : Engine := engine_with [HUser [SPanic "boom"]] [] [].

(** The handler panics and so does the post hook. *)
Definition failing_post_engine : Engine :=
  engine_with [HUser [SWrite "a"; SPanic "boom"]] [] [SPanic "post failed"].

(** The loop of [Next] about to call the gzip middleware, first in a
    chain whose second handler panics. *)
Definition at_gzip : Context :=
  log (EvEnter 0) (incr_index (dispatch_context panicking_engine get_slash)).

(** The first handler is the gzip middleware, the second one writes. *)
Definition gzip_engine : Engine :=
  engine_with [HGzip; HUser [SWrite "hello"]] [] [].

(** A pattern that matches [/static] only. *)
Definition static_only : Regexp := {| MatchString := String.eqb "/static" |}.

Definition pattern_table : list methodTree :=
  [{| method := "GET"; root := pattern_node static_only (Some [HUser [SWrite "file"]]) |}].

Definition get_empty_path : Request :=
  {| Method := "GET"; Path := ""; AcceptEncoding := ""; ParseForm := None |}.

(** A growth policy: at least double. *)
Definition double (old need : nat) : nat := Nat.max need (2 * old).

Definition setup : list op :=
  [OpUse 0 [HUser [SWrite "auth"]]; OpUse 0 [HGzip]; OpUse 0 [HCompression];
   OpGET 0 "/" (HUser [SWrite "home"])].

Definition later : list op :=
  [OpUse 1 [HUser [SWrite "admin"]]; OpPOST 1 "/x" (HUser [SWrite "x"]);
   OpUse 1 [HUser [SWrite "audit"]]].



(** ** Further statements *)

Definition no_chain (x : Context) : Prop :=
  handlers x = None ∧ entered (trace x) = [].

Definition bad_form : Request :=
  {| Method := "GET"; Path := "/"; AcceptEncoding := "";
     ParseForm := Some "invalid URL escape" |}.

(** An event that involves no gzip writer. *)
Definition transport_only (e : event) : bool :=
  match e with
  | EvSetHeader _ _ | EvGzClose _ => false
  | EvWrite Transport _ | EvWriteHeader Transport _ => true
  | EvWrite _ _ | EvWriteHeader _ _ => false
  | _ => true
  end.

Definition uncompressed (c0 x : Context) : Prop :=
  Contains (AcceptEncoding (Request_ c0)) "gzip" = false ∧
  Request_ x = Request_ c0 ∧ Writer x = Transport ∧ gz_next x = gz_next c0 ∧
  forallb transport_only (trace x) = true.

Definition plain_client : Request :=
  {| Method := "GET"; Path := "/"; AcceptEncoding := "deflate, br";
     ParseForm := None |}.

(** Every gzip writer created since [c0] has been closed. *)
Definition all_closed (c0 x : Context) : Prop :=
  (gz_next c0 ≤ gz_next x)%nat ∧
  ∃ t, trace x = trace c0 ++ t ∧
       ∀ gz, (gz_next c0 ≤ gz < gz_next x)%nat → EvGzClose gz ∈ t.

(** Two compression middlewares, then a handler that panics. *)
Definition double_gzip_engine : Engine :=
  engine_with [HGzip; HCompression; HUser [SWrite "a"; SPanic "boom"]] [] [].

(** The entry a registration call adds to [engine.trees], given the
    prefix of its group. *)
Definition tree_of (o : op) (pre : list HandlerFunc) : option methodTree :=
  match o with
  | OpGET _ p h =>
      Some {| method := "GET"; root := literal_node p (Some (pre ++ [h])) |}
  | OpPOST _ p h =>
      Some {| method := "POST"; root := literal_node p (Some (pre ++ [h])) |}
  | OpPUT _ p h =>
      Some {| method := "PUT"; root := literal_node p (Some (pre ++ [h])) |}
  | OpDELETE _ p h =>
      Some {| method := "DELETE"; root := literal_node p (Some (pre ++ [h])) |}
  | OpRegexMatch _ re h =>
      Some {| method := "GET"; root := pattern_node re (Some (pre ++ [h])) |}
  | OpGroup _ | OpUse _ _ => None
  end.

(** The scan of [ServeHTTP] stops at this entry. *)
Definition hit (m p : string) (v : methodTree) : bool :=
  node_accepts (root v) p && String.eqb (method v) m.

(** [GzipMiddleware] replaced by [CompressionMiddleware]. *)
Definition as_compression (h : HandlerFunc) : HandlerFunc :=
  match h with
  | HGzip => HCompression
  | _ => h
  end.

(** The same context, on the chain with that replacement. *)
Definition on_compression (c : Context) : Context :=
  set_handlers (map as_compression <$> handlers c) c.






(** Every byte of [s] passes [P]. *)
Fixpoint all_bytes (P : Ascii.ascii → bool) (s : string) : bool :=
  match s with
  | EmptyString => true
  | String c s' => P c && all_bytes P s'
  end.

Definition digit_or_dot (c : Ascii.ascii) : bool :=
  ((Ascii.leb "0" c && Ascii.leb c "9") || Ascii.eqb c ".")%char.

(** The patterns of [botPatterns] that hold no other one. *)
Definition core_patterns : list string :=
  ["bot"; "crawler"; "spider"; "scraper"; "curl"; "wget"; "slurp";
   "facebookexternalhit"; "whatsapp"].

(** The status codes of the calls of [WriteHeader]. *)
Definition header_calls (cs : list rcall) : list Z :=
  omap (λ c, match c with CWriteHeader s => Some s | _ => None end) cs.

Definition headers_passed (ws : list wcall) : list Z :=
  omap (λ w, match w with WWriteHeader s => Some s | _ => None end) ws.

(** The counts of the writes made before the second [WriteHeader]. *)
Fixpoint counted (seen : bool) (cs : list rcall) : Z :=
  match cs with
  | [] => 0
  | CWrite _ n :: cs' => n + counted seen cs'
  | CWriteHeader _ :: cs' => if seen then 0 else counted true cs'
  end.


(** A second route for [GET /], behind other calls. *)
Definition shadowed : list op :=
  [OpUse 0 [HUser [SWrite "more"]]; OpGET 0 "/" (HUser [SWrite "other"])].

(** * Properties *)

(** ** Integers *)

Lemma wrap_int_in_int z : in_int (wrap_int z).
Proof.
  unfold in_int, wrap_int, int_min, int_max.
  pose proof (Z.mod_pos_bound (z + 2 ^ 63) (2 ^ 64) ltac:(lia)). lia.
Qed.

Lemma wrap_int_id z : in_int z → wrap_int z = z.
Proof.
  unfold in_int, wrap_int, int_min, int_max. intros Hz.
  rewrite Z.mod_small; lia.
Qed.

Lemma wrap_int_succ z :
  in_int z →
  (z < int_max ∧ wrap_int (z + 1) = z + 1) ∨
  (z = int_max ∧ wrap_int (z + 1) = int_min).
Proof.
  intros Hz. destruct (decide (z < int_max)) as [Hlt|Hge].
  - left. split; [done|]. apply wrap_int_id. unfold in_int in *. lia.
  - right. unfold in_int in Hz. assert (z = int_max) as -> by lia.
    split; [done|]. reflexivity.
Qed.

Lemma sentinel_in_int : in_int sentinel.
Proof. unfold in_int, sentinel, int_min, int_max. lia. Qed.

(** ** A proof rule for handlers

    [I] holds of the context while a handler runs, [E] of the context a
    panic leaves behind, [F] stands for running out of fuel. *)

Section Rule.
Variables (I E : Context → Prop) (F : Prop).
Local Abbreviation holds := (holds I E F).

Variable next : Context → Outcome.
Hypothesis next_ok : ∀ c, I c → holds (next c).
Hypothesis abort_ok : ∀ c, I c → I (Abort c).
Hypothesis write_ok : ∀ x c, I c → I (Write x c).
Hypothesis panic_ok : ∀ c, I c → E c.
Hypothesis wrap_ok : ∀ c, I c → I (wrapGzip c).1.
Hypothesis close_I : ∀ gz c, I c → I (gzipWriter_Close gz c).
Hypothesis close_E : ∀ gz c, E c → E (gzipWriter_Close gz c).

Lemma holds_bind o k : holds o → (∀ c, I c → holds (k c)) → holds (bind o k).
Proof. destruct o; simpl; auto. Qed.

Lemma run_body_rule b : ∀ c, I c → holds (run_body next b c).
Proof.
  induction b as [|s b IH]; intros c Hc; [exact Hc|].
  destruct s; simpl.
  - apply holds_bind; auto.
  - auto.
  - auto.
  - auto.
Qed.

Lemma gzip_rule c : I c → holds (let '(c1, cleanup) := wrapGzip c in
                                 defer cleanup (next c1)).
Proof.
  intros Hc. pose proof (wrap_ok c Hc) as Hw. simpl in *.
  specialize (next_ok _ Hw).
  destruct (next _) as [c'|v c'|]; simpl in *; auto.
Qed.

Lemma call_rule h c : I c → holds (call next h c).
Proof.
  intros Hc. destruct h; simpl.
  - by apply run_body_rule.
  - unfold GzipMiddleware. destruct (negb _); [auto|]. by apply gzip_rule.
  - unfold CompressionMiddleware. destruct (Contains _ _); [|auto].
    by apply gzip_rule.
Qed.
End Rule.

(** The same for the loop of [Next], up to fuel: [L] holds at the loop
    head. *)
Section LoopRule.
Variables (I L E : Context → Prop).

Hypothesis incr_ok : ∀ c, I c → L (incr_index c).
Hypothesis exit_ok : ∀ c, L c → len (handlers c) ≤ index c → I c.
Hypothesis range_ok :
  ∀ c, L c → index c < len (handlers c) →
       handler_at (handlers c) (index c) = None → E c.
Hypothesis enter_ok :
  ∀ c h, L c → index c < len (handlers c) →
         handler_at (handlers c) (index c) = Some h →
         I (log (EvEnter (index c)) c).
Hypothesis abort_ok : ∀ c, I c → I (Abort c).
Hypothesis write_ok : ∀ x c, I c → I (Write x c).
Hypothesis panic_ok : ∀ c, I c → E c.
Hypothesis wrap_ok : ∀ c, I c → I (wrapGzip c).1.
Hypothesis close_I : ∀ gz c, I c → I (gzipWriter_Close gz c).
Hypothesis close_E : ∀ gz c, E c → E (gzipWriter_Close gz c).

Lemma Next_loop_rule fuel : ∀ c, L c → holds I E True (Next_loop fuel c).
Proof.
  induction fuel as [|fuel IH]; intros c HL; simpl; [done|].
  destruct (Z.ltb_spec (index c) (len (handlers c))) as [Hlt|Hge].
  - destruct (handler_at _ _) as [h|] eqn:Hh; simpl; [|eauto].
    apply holds_bind; [|by auto].
    apply call_rule; eauto.
  - simpl. auto.
Qed.

Lemma Next_rule fuel c : I c → holds I E True (Next fuel c).
Proof. intros Hc. apply Next_loop_rule. auto. Qed.

Lemma run_hook_rule fuel body c : I c → holds I E True (run_hook fuel body c).
Proof.
  intros Hc. apply run_body_rule; auto. intros c' Hc'. by apply Next_rule.
Qed.
End LoopRule.

(** ** What a run leaves untouched *)

Lemma follows_refl c : in_int (index c) → follows c c.
Proof.
  intros. unfold follows. split_and!; try done.
  exists []. by rewrite app_nil_r.
Qed.

Lemma follows_log c c' e :
  chain_event e = true → follows c c' → follows c (log e c').
Proof.
  intros He (Hh & Hr & Hi & t & Ht & Hf). unfold follows.
  split_and!; try done.
  exists (t ++ [e]). simpl. rewrite Ht, app_assoc. split; [done|].
  rewrite forallb_app, Hf. simpl. by rewrite He.
Qed.

Lemma follows_set_index c c' i :
  in_int i → follows c c' → follows c (set_index i c').
Proof. intros Hi (Hh & Hr & _ & Ht). unfold follows. by split_and!. Qed.

Lemma follows_wrapGzip c c' : follows c c' → follows c (wrapGzip c').1.
Proof.
  intros H. apply (follows_log _ _ (EvSetHeader "Content-Encoding" "gzip")) in H;
    [|done].
  destruct H as (Hh & Hr & Hi & Ht). unfold follows. by split_and!.
Qed.

Lemma follows_trans c1 c2 c3 : follows c1 c2 → follows c2 c3 → follows c1 c3.
Proof.
  intros (Hh & Hr & _ & t & Ht & Hf) (Hh' & Hr' & Hi' & t' & Ht' & Hf').
  unfold follows. split_and!; try congruence.
  exists (t ++ t'). rewrite Ht', Ht, app_assoc. split; [done|].
  by rewrite forallb_app, Hf, Hf'.
Qed.

Lemma Next_loop_follows fuel c0 c :
  follows c0 c → holds (follows c0) (follows c0) True (Next_loop fuel c).
Proof.
  apply Next_loop_rule with (I := follows c0); auto.
  - intros c' H. apply follows_set_index; [apply wrap_int_in_int|done].
  - intros c' h H _ _. by apply follows_log.
  - intros c' H. apply follows_set_index; [apply sentinel_in_int|].
    by apply follows_log.
  - intros x c' H. by apply follows_log.
  - apply follows_wrapGzip.
  - intros gz c' H. by apply follows_log.
  - intros gz c' H. by apply follows_log.
Qed.

Lemma Next_follows fuel c0 c :
  follows c0 c → holds (follows c0) (follows c0) True (Next fuel c).
Proof.
  intros H. apply Next_loop_follows.
  apply follows_set_index; [apply wrap_int_in_int|done].
Qed.

Lemma run_hook_follows fuel body c0 c :
  follows c0 c → holds (follows c0) (follows c0) True (run_hook fuel body c).
Proof.
  intros H. apply run_body_rule; auto.
  - intros c' H'. by apply Next_follows.
  - intros c' H'. apply follows_set_index; [apply sentinel_in_int|].
    by apply follows_log.
  - intros x c' H'. by apply follows_log.
Qed.

(** A [Next] that returns has left the loop: the cursor is past the
    chain. *)
Lemma Next_loop_returned fuel : ∀ c c',
  Next_loop fuel c = Returned c' → len (handlers c') ≤ index c'.
Proof.
  induction fuel as [|fuel IH]; intros c c'; simpl; [done|].
  destruct (Z.ltb_spec (index c) (len (handlers c))) as [Hlt|Hge].
  - destruct (handler_at _ _) as [h|]; [|done].
    destruct (call _ h _) as [c1|v c1|]; simpl; try done. apply IH.
  - intros [= <-]. done.
Qed.

(** ** Termination

    Below the sentinel a chain of [n] handlers needs no more than [n + 1]
    nested loops: inside handler [i] the cursor never goes back below
    [i], so every [Next] called there starts beyond [i]. *)

Lemma holds_no_fuel_left I E o : holds I E False o → o ≠ OutOfFuel.
Proof. by destruct o. Qed.

Lemma Next_loop_terminates fuel : ∀ c,
  len (handlers c) ≤ sentinel → in_int (index c) → enough_fuel fuel c →
  Next_loop fuel c ≠ OutOfFuel.
Proof.
  induction fuel as [|fuel IH]; intros c Hlen Hint [Hf1 Hf]; [lia|].
  simpl.
  destruct (Z.ltb_spec (index c) (len (handlers c))) as [Hlt|Hge]; [|done].
  destruct (handler_at _ _) as [h|] eqn:Hh; [|done].
  assert (0 ≤ index c) as Hpos.
  { unfold handler_at in Hh. destruct (Z.ltb_spec (index c) 0); [done|lia]. }
  specialize (Hf Hpos).
  set (I := λ c', handlers c' = handlers c ∧ in_int (index c') ∧
                  index c ≤ index c').
  assert (∀ c', I c' →
            holds I (λ _, True) False (Next_loop fuel (incr_index c'))) as Hnext.
  { intros c' (Hh' & Hi' & Hle).
    assert (Next_loop fuel (incr_index c') ≠ OutOfFuel) as Hno.
    { apply IH; simpl.
      - by rewrite Hh'.
      - apply wrap_int_in_int.
      - unfold enough_fuel. simpl. split; [lia|]. rewrite Hh'.
        destruct (wrap_int_succ (index c') Hi') as [[_ ->]|[_ ->]];
          [lia|unfold int_min; lia]. }
    pose proof (Next_loop_follows fuel (incr_index c') (incr_index c')
                  (follows_refl (incr_index c') (wrap_int_in_int _))) as Hfol.
    pose proof (Next_loop_returned fuel (incr_index c')) as Hret.
    destruct (Next_loop fuel (incr_index c')) as [c2|v c2|]; simpl; try done.
    destruct Hfol as (Hh2 & _ & Hi2 & _). simpl in Hh2.
    specialize (Hret c2 eq_refl). unfold I. split_and!; [congruence|done|].
    rewrite Hh2, Hh' in Hret. lia. }
  apply (holds_no_fuel_left I (λ _, True)).
  apply holds_bind; [|done].
  apply call_rule; unfold I; simpl; auto.
  - intros c' (Hh' & Hi' & Hle). split_and!; [done|apply sentinel_in_int|lia].
  - split_and!; [done..|lia].
Qed.

Lemma Next_terminates fuel c :
  len (handlers c) ≤ sentinel → in_int (index c) →
  len (handlers c) < Z.of_nat fuel →
  Next fuel c ≠ OutOfFuel.
Proof.
  intros Hlen Hint Hf. apply Next_loop_terminates; simpl; [done|..].
  - apply wrap_int_in_int.
  - unfold enough_fuel. simpl. split; [unfold len in Hf; lia|].
    destruct (wrap_int_succ (index c) Hint) as [[_ ->]|[_ ->]];
      [lia|unfold int_min; lia].
Qed.

Lemma run_hook_terminates fuel body : ∀ c,
  len (handlers c) ≤ sentinel → in_int (index c) →
  len (handlers c) < Z.of_nat fuel →
  run_hook fuel body c ≠ OutOfFuel.
Proof.
  intros c Hlen Hint Hf.
  set (I := λ c', handlers c' = handlers c ∧ in_int (index c')).
  assert (∀ c', I c' → holds I (λ _, True) False (Next fuel c')) as Hnext.
  { intros c' (Hh' & Hi').
    assert (Next fuel c' ≠ OutOfFuel) as Hno.
    { apply Next_terminates; [|done|]; rewrite Hh'; done. }
    pose proof (Next_follows fuel c' c' (follows_refl _ Hi')) as Hfol.
    destruct (Next fuel c') as [c2|v c2|]; simpl; try done.
    destruct Hfol as (Hh2 & _ & Hi2 & _). split; [congruence|done]. }
  apply (holds_no_fuel_left I (λ _, True)).
  apply run_body_rule; unfold I; simpl; auto using sentinel_in_int.
  intros c' [? ?]. auto using sentinel_in_int.
Qed.

(** ** The two recovery scopes *)

Lemma holds_fuel I E o : o ≠ OutOfFuel → holds I E True o → holds I E False o.
Proof. by destruct o. Qed.

Lemma follows_set_Err c c' e : follows c c' → follows c (set_Err e c').
Proof. intros (Hh & Hr & Hi & Ht). unfold follows. by split_and!. Qed.

Lemma ready_follows fuel c c' : ready fuel c → follows c c' → ready fuel c'.
Proof.
  intros (Hl & _ & Hf) (Hh & _ & Hi & _). unfold ready. rewrite Hh. done.
Qed.

Lemma ready_log fuel e c : ready fuel c → ready fuel (log e c).
Proof. done. Qed.

Lemma ready_set_Err fuel e c : ready fuel c → ready fuel (set_Err e c).
Proof. done. Qed.

Lemma run_hook_total fuel body c0 c :
  ready fuel c → follows c0 c →
  holds (follows c0) (follows c0) False (run_hook fuel body c).
Proof.
  intros (Hl & Hi & Hf) Hfol. apply holds_fuel.
  - apply run_hook_terminates; [lia|done..].
  - by apply run_hook_follows.
Qed.

Lemma Next_total fuel c0 c :
  ready fuel c → follows c0 c →
  holds (follows c0) (follows c0) False (Next fuel c).
Proof.
  intros (Hl & Hi & Hf) Hfol. apply holds_fuel.
  - apply Next_terminates; [lia|done..].
  - by apply Next_follows.
Qed.

(** Pre-hook, form parsing and chain: they end, by a return or by a
    panic, and log nothing but events of handlers after [EvPre]. *)
Lemma handle_body_total fuel engine c :
  ready fuel c →
  holds (follows (log EvPre c)) (follows (log EvPre c)) False
        (handle_body fuel engine c).
Proof.
  intros Hr. unfold handle_body.
  assert (follows (log EvPre c) (log EvPre c)) as H0.
  { apply follows_refl. apply Hr. }
  apply holds_bind.
  - apply run_hook_total; [by apply ready_log|done].
  - intros c1 H1. destruct (handlers c1) eqn:Hh.
    + destruct (ParseForm _); simpl; [done|].
      apply Next_total; [|done].
      eapply ready_follows; [|exact H1]. by apply ready_log.
    + simpl. apply follows_log; [done|]. by apply follows_set_Err.
Qed.

Lemma inner_scope_total fuel engine c o :
  ready fuel c →
  holds (follows (log EvPre c)) (follows (log EvPre c)) False o →
  ∃ c1, recovered o = Some c1 ∧ follows (log EvPre c) c1 ∧
        holds (follows (log (EvPost (Err c1)) c1))
              (follows (log (EvPost (Err c1)) c1)) False
              (inner_scope fuel engine o).
Proof.
  intros Hr Ho.
  assert (∀ c1, follows (log EvPre c) c1 →
            holds (follows (log (EvPost (Err c1)) c1))
                  (follows (log (EvPost (Err c1)) c1)) False
                  (run_hook fuel (Post_Process engine)
                     (log (EvPost (Err c1)) c1))) as Hpost.
  { intros c1 H1. apply run_hook_total.
    - apply ready_log. eapply ready_follows; [|exact H1]. by apply ready_log.
    - apply follows_refl. apply H1. }
  destruct o as [c1|v c1|]; simpl in *; [| |done].
  - exists c1. auto.
  - exists (set_Err (Some v) c1). split; [done|].
    split; [by apply follows_set_Err|].
    apply (Hpost (set_Err (Some v) c1)). by apply follows_set_Err.
Qed.

(** [safelyHandle] returns, whatever the hooks and the handlers do. *)
Lemma safelyHandle_returns fuel engine c :
  ready fuel c →
  ∃ c1 c2 c',
    recovered (handle_body fuel engine c) = Some c1 ∧
    follows (log EvPre c) c1 ∧
    follows (log (EvPost (Err c1)) c1) c2 ∧
    (inner_scope fuel engine (handle_body fuel engine c) = Returned c2 ∧ c' = c2 ∨
     ∃ v, inner_scope fuel engine (handle_body fuel engine c) = Panicked v c2 ∧
          c' = Write v c2) ∧
    safelyHandle fuel engine c = Returned c'.
Proof.
  intros Hr.
  destruct (inner_scope_total fuel engine c _ Hr (handle_body_total _ engine _ Hr))
    as (c1 & Hrec & H1 & Hin).
  unfold safelyHandle.
  destruct (inner_scope _ _ _) as [c2|v c2|]; simpl in *; [| |done].
  - exists c1, c2, c2. eauto 10.
  - exists c1, c2, (Write v c2). split_and!; eauto.
Qed.

(** ** Abort *)

Lemma aborted_snoc t e : aborted (t ++ [e]) = aborted t || is_abort e.
Proof. unfold aborted. rewrite existsb_app. simpl. by rewrite orb_false_r. Qed.

Lemma no_enter_after_abort_snoc t e :
  no_enter_after_abort (t ++ [e]) =
  no_enter_after_abort t && (negb (aborted t) || negb (is_enter e)).
Proof.
  induction t as [|x t IH]; simpl.
  - by destruct e.
  - destruct x; simpl; try exact IH.
    rewrite forallb_app. simpl. by destruct (is_enter e), (forallb _ t).
Qed.

Lemma no_enter_after_abort_split t :
  no_enter_after_abort t = true →
  ∀ t1 k t2, t = t1 ++ EvAbort k :: t2 → ∀ j, EvEnter j ∉ t2.
Proof.
  intros Ht t1. revert t Ht.
  induction t1 as [|x t1 IH]; intros t Ht k t2 -> j Hj; simpl in Ht.
  - rewrite forallb_forall in Ht. apply list_elem_of_In in Hj.
    by specialize (Ht _ Hj).
  - destruct x; try (by eapply IH).
    rewrite forallb_app in Ht. apply andb_prop in Ht as [_ Ht].
    simpl in Ht. rewrite forallb_forall in Ht. apply list_elem_of_In in Hj.
    by specialize (Ht _ Hj).
Qed.

Lemma abort_inv_weaken hs d d' c :
  d' ≤ d → abort_inv hs d c → abort_inv hs d' c.
Proof.
  intros Hd (Hh & Hi & Ht & Ha). unfold abort_inv. split_and!; try done.
  intros H. specialize (Ha H). lia.
Qed.

Lemma abort_inv_log hs d e c :
  is_enter e = false → is_abort e = false →
  abort_inv hs d c → abort_inv hs d (log e c).
Proof.
  intros He Ha (Hh & Hi & Ht & Hab). unfold abort_inv. simpl.
  rewrite no_enter_after_abort_snoc, aborted_snoc, Ht, He, Ha, orb_false_r.
  split_and!; try done. simpl. apply orb_true_r.
Qed.

Lemma abort_inv_set_Err hs d e c :
  abort_inv hs d c → abort_inv hs d (set_Err e c).
Proof. done. Qed.

Lemma abort_inv_Abort hs d c :
  len hs ≤ sentinel → abort_inv hs d c → abort_inv hs d (Abort c).
Proof.
  intros Hlen (Hh & Hi & Ht & Hab). unfold abort_inv. simpl.
  rewrite no_enter_after_abort_snoc, Ht. simpl. rewrite orb_true_r.
  split_and!; [done|apply sentinel_in_int|done|auto].
Qed.

Lemma abort_inv_incr hs d c :
  d ≤ 2 → abort_inv hs d c → abort_inv hs (d - 1) (incr_index c).
Proof.
  intros Hd (Hh & Hi & Ht & Hab). unfold abort_inv. simpl.
  split_and!; [done|apply wrap_int_in_int|done|].
  intros Ha. specialize (Hab Ha).
  destruct (wrap_int_succ (index c) Hi) as [[_ ->]|[_ ->]];
    [lia|unfold int_min; lia].
Qed.

Lemma abort_inv_enter hs d c h :
  1 ≤ d → abort_inv hs (d - 1) c → index c < len (handlers c) →
  handler_at (handlers c) (index c) = Some h →
  abort_inv hs d (log (EvEnter (index c)) c).
Proof.
  intros Hd (Hh & Hi & Ht & Hab) Hlt Hat.
  assert (0 ≤ index c) as Hpos.
  { unfold handler_at in Hat. destruct (Z.ltb_spec (index c) 0); [done|lia]. }
  assert (aborted (trace c) = false) as Hna.
  { destruct (aborted (trace c)); [|done]. rewrite Hh in Hlt.
    destruct (Hab eq_refl); lia. }
  unfold abort_inv. simpl.
  rewrite no_enter_after_abort_snoc, aborted_snoc, Ht, Hna.
  split_and!; try done.
Qed.

Section AbortRule.
Variables (hs : HandlersChain) (d : Z).
Hypothesis chain_below : len hs ≤ sentinel.
Hypothesis d_range : 1 ≤ d ≤ 2.

Lemma Next_abort_inv fuel c :
  abort_inv hs d c →
  holds (abort_inv hs d) (abort_inv hs (d - 1)) True (Next fuel c).
Proof.
  apply Next_rule with (L := abort_inv hs (d - 1)).
  - intros c'. apply abort_inv_incr. lia.
  - intros c' (Hh & Hi & Ht & Hab) Hge. unfold abort_inv. split_and!; try done.
    intros _. left. by rewrite <- Hh.
  - done.
  - intros c' h. apply abort_inv_enter. lia.
  - intros c'. by apply abort_inv_Abort.
  - intros x c'. by apply abort_inv_log.
  - intros c'. apply abort_inv_weaken. lia.
  - intros c' H.
    by apply (abort_inv_log _ _ (EvSetHeader "Content-Encoding" "gzip")) in H.
  - intros gz c'. by apply abort_inv_log.
  - intros gz c'. by apply abort_inv_log.
Qed.

Lemma run_hook_abort_inv fuel body c :
  abort_inv hs d c →
  holds (abort_inv hs d) (abort_inv hs (d - 1)) True (run_hook fuel body c).
Proof.
  intros Hc. apply run_body_rule; auto.
  - intros c'. apply Next_abort_inv.
  - intros c'. by apply abort_inv_Abort.
  - intros x c'. by apply abort_inv_log.
  - intros c'. apply abort_inv_weaken. lia.
Qed.
End AbortRule.

Lemma handle_body_abort_inv fuel engine hs c :
  len hs ≤ sentinel → abort_inv hs 2 c →
  holds (abort_inv hs 2) (abort_inv hs 1) True (handle_body fuel engine c).
Proof.
  intros Hlen Hc. unfold handle_body. apply holds_bind.
  - apply (run_hook_abort_inv hs 2); [done|lia|]. by apply abort_inv_log.
  - intros c1 H1. destruct (handlers c1).
    + destruct (ParseForm _); simpl.
      * revert H1. apply abort_inv_weaken. lia.
      * apply (Next_abort_inv hs 2); [done|lia|done].
    + simpl. apply abort_inv_log; [done..|]. by apply abort_inv_set_Err.
Qed.

Lemma safelyHandle_abort_inv fuel engine hs c :
  len hs ≤ sentinel → abort_inv hs 2 c →
  holds (abort_inv hs 0) (abort_inv hs 0) True (safelyHandle fuel engine c).
Proof.
  intros Hlen Hc. unfold safelyHandle.
  pose proof (handle_body_abort_inv fuel engine hs c Hlen Hc) as H1.
  assert (∀ c1, abort_inv hs 1 c1 →
            holds (abort_inv hs 1) (abort_inv hs 0) True
                  (run_hook fuel (Post_Process engine)
                     (log (EvPost (Err c1)) c1))) as Hpost.
  { intros c1 Hc1. apply (run_hook_abort_inv hs 1); [done|lia|].
    by apply abort_inv_log. }
  assert (holds (abort_inv hs 1) (abort_inv hs 0) True
            (inner_scope fuel engine (handle_body fuel engine c))) as H2.
  { destruct (handle_body fuel engine c) as [c1|v c1|]; simpl in *; [| |done].
    - apply Hpost. revert H1. apply abort_inv_weaken. lia.
    - apply (Hpost (set_Err (Some v) c1)). by apply abort_inv_set_Err. }
  destruct (inner_scope _ _ _) as [c2|v c2|]; simpl in *; [| |done].
  - revert H2. apply abort_inv_weaken. lia.
  - by apply abort_inv_log.
Qed.

(** ** Which handlers a run enters *)

Lemma entered_snoc t e :
  entered (t ++ [e]) = entered t ++ match e with EvEnter i => [i] | _ => [] end.
Proof. unfold entered. rewrite omap_app. by destruct e. Qed.

Lemma aborted_app t1 t2 : aborted (t1 ++ t2) = aborted t1 || aborted t2.
Proof. apply existsb_app. Qed.

Lemma follows_aborted c c' :
  follows c c' → aborted (trace c') = false → aborted (trace c) = false.
Proof.
  intros (_ & _ & _ & t & -> & _). rewrite aborted_app.
  by destruct (aborted (trace c)).
Qed.

(** With a negative cursor the loop indexes out of range. *)
Lemma Next_loop_negative fuel c c' :
  index c < 0 → Next_loop fuel c ≠ Returned c'.
Proof.
  intros Hneg. destruct fuel as [|fuel]; simpl; [done|].
  assert (index c < len (handlers c)) as Hlt by (unfold len; lia).
  destruct (Z.ltb_spec (index c) (len (handlers c))); [|lia].
  unfold handler_at. destruct (Z.ltb_spec (index c) 0); [done|lia].
Qed.

Lemma handler_at_Some hs i h : handler_at hs i = Some h → 0 ≤ i < len hs.
Proof.
  unfold handler_at, len. destruct (Z.ltb_spec i 0) as [Hi|Hi]; [done|].
  intros Hl%lookup_lt_Some. lia.
Qed.

Lemma handler_at_is_Some hs i : 0 ≤ i < len hs → is_Some (handler_at hs i).
Proof.
  unfold handler_at, len. intros Hi.
  destruct (Z.ltb_spec i 0) as [Hneg|Hpos]; [lia|].
  apply lookup_lt_is_Some. lia.
Qed.

(** A run that returns without an [Abort] in its trace has entered
    every handler from the cursor on, in order, once. *)
Lemma Next_loop_enters_all fuel : ∀ c c',
  in_int (index c) → 0 ≤ index c →
  Next_loop fuel c = Returned c' → aborted (trace c') = false →
  entered (trace c') =
  entered (trace c) ++ seqZ (index c) (len (handlers c) - index c).
Proof.
  induction fuel as [|fuel IH]; intros c c' Hint Hpos; simpl; [done|].
  destruct (Z.ltb_spec (index c) (len (handlers c))) as [Hlt|Hge].
  2:{ intros [= <-] _. rewrite seqZ_nil by lia. by rewrite app_nil_r. }
  destruct (handler_at _ _) as [h|] eqn:Hh; [|done].
  set (hs := handlers c). set (i := index c). set (n := len hs).
  set (I := λ x, handlers x = hs ∧ in_int (index x) ∧
                 (aborted (trace x) = false →
                  (index x = i ∧ entered (trace x) = entered (trace c) ++ [i]) ∨
                  (n ≤ index x ∧
                   entered (trace x) = entered (trace c) ++ seqZ i (n - i)))).
  assert (∀ x, I x → holds I (λ _, True) True
                           (Next_loop fuel (incr_index x))) as Hnext.
  { intros x (Hhx & Hix & Hx).
    pose proof (Next_loop_follows fuel (incr_index x) (incr_index x)
                  (follows_refl (incr_index x) (wrap_int_in_int _))) as Hfol.
    pose proof (Next_loop_returned fuel (incr_index x)) as Hret.
    pose proof (IH (incr_index x)) as IHx.
    pose proof (Next_loop_negative fuel (incr_index x)) as Hneg.
    destruct (Next_loop fuel (incr_index x)) as [x'|v x'|]; simpl; try done.
    specialize (Hret x' eq_refl). specialize (IHx x' (wrap_int_in_int _)).
    pose proof (follows_aborted _ _ Hfol) as Hab.
    destruct Hfol as (Hh' & _ & Hi' & _). simpl in *.
    assert (handlers x' = hs) as Hhx' by congruence.
    split_and!; [done..|]. intros Hna. right.
    rewrite Hhx' in Hret. split; [done|].
    specialize (Hab Hna). specialize (Hx Hab).
    destruct (wrap_int_succ (index x) Hix) as [[Hlt' Hw]|[_ Hw]].
    2:{ exfalso. apply (Hneg x'); [|done]. rewrite Hw. unfold int_min. lia. }
    rewrite Hw in IHx. rewrite Hhx in IHx. fold n in IHx.
    destruct Hx as [[Hxi Hxe]|[Hxn Hxe]].
    - rewrite IHx; [|unfold i in *; lia|done..].
      rewrite Hxe, Hxi, <- app_assoc. f_equal.
      rewrite (seqZ_cons i) by (unfold i, n, hs; lia). simpl.
      do 2 f_equal; lia.
    - rewrite IHx; [|unfold i, n, hs in *; lia|done..].
      rewrite Hxe, (seqZ_nil (index x + 1)) by lia.
      by rewrite app_nil_r. }
  assert (I (log (EvEnter i) c)) as H0.
  { unfold I. simpl. split_and!; [done..|]. intros _. left.
    by rewrite entered_snoc. }
  assert (holds I (λ _, True) True
            (call (λ c', Next_loop fuel (incr_index c')) h (log (EvEnter i) c)))
    as Hcall.
  { apply call_rule; auto; unfold I; simpl.
    - intros x (? & ? & Hx). split_and!; [done|apply sentinel_in_int|].
      rewrite aborted_snoc. simpl. by rewrite orb_true_r.
    - intros b x (? & ? & Hx). split_and!; [done..|].
      rewrite aborted_snoc, entered_snoc, orb_false_r, app_nil_r. done.
    - intros x (? & ? & Hx). split_and!; [done..|].
      rewrite aborted_snoc, entered_snoc, orb_false_r, app_nil_r. done.
    - intros gz x (? & ? & Hx). split_and!; [done..|].
      rewrite aborted_snoc, entered_snoc, orb_false_r, app_nil_r. done. }
  fold i.
  destruct (call _ h _) as [c1|v c1|]; simpl in *; [|done..].
  intros Hc' Hna. specialize (Hnext c1 Hcall). rewrite Hc' in Hnext.
  destruct Hnext as (Hh' & _ & Hx). specialize (Hx Hna).
  pose proof (Next_loop_returned _ _ _ Hc') as Hret. rewrite Hh' in Hret.
  destruct Hx as [[Hxi _]|[_ Hxe]]; [unfold i, n, hs in *; lia|done].
Qed.

(** ** Chains that neither abort nor panic *)

Lemma body_size_nonneg h : 0 ≤ body_size h.
Proof. destruct h; simpl; lia. Qed.

Lemma chain_weight_nonneg l : 0 ≤ chain_weight l.
Proof.
  induction l as [|h l IH]; simpl; [done|].
  pose proof (body_size_nonneg h). lia.
Qed.

Lemma Next_loop_past fuel c :
  len (handlers c) ≤ index c → Next_loop (S fuel) c = Returned c.
Proof.
  intros Hge. simpl.
  destruct (Z.ltb_spec (index c) (len (handlers c))); [lia|done].
Qed.

Section QuietBody.
Variable next : Context → Outcome.
Variables (hs : HandlersChain) (i n W : Z) (E0 : list Z).
Hypothesis i_lt_n : i < n.
Local Abbreviation inside := (inside hs i n E0).

Hypothesis next_first :
  ∀ x, handlers x = hs → index x = i →
       ∃ x', next x = Returned x' ∧ handlers x' = hs ∧ n ≤ index x' ≤ W ∧
             entered (trace x') = entered (trace x) ++ seqZ (i + 1) (n - i - 1).
Hypothesis next_again :
  ∀ x, handlers x = hs → n ≤ index x → index x < int_max →
       ∃ x', next x = Returned x' ∧ handlers x' = hs ∧
             index x' = index x + 1 ∧ entered (trace x') = entered (trace x).

Lemma inside_mono X X' x : X ≤ X' → inside X x → inside X' x.
Proof. intros HX [Hh [HA|[HB ?]]]; (split; [done|]); [by left|right]. split; [lia|done]. Qed.

Lemma inside_next X x :
  W ≤ X → X < int_max → inside X x →
  ∃ x', next x = Returned x' ∧ inside (X + 1) x'.
Proof.
  intros HW HX [Hh [[Hi He]|[Hi He]]].
  - destruct (next_first x Hh Hi) as (x' & -> & Hh' & Hi' & He').
    exists x'. split; [done|]. split; [done|]. right. split; [lia|].
    rewrite He', He, <- app_assoc. f_equal.
    rewrite (seqZ_cons i) by lia. simpl. do 2 f_equal; lia.
  - destruct (next_again x Hh) as (x' & -> & Hh' & Hi' & He'); [lia..|].
    exists x'. split; [done|]. split; [done|]. right. split; [lia|].
    by rewrite He'.
Qed.

Lemma inside_log X e x :
  is_enter e = false → inside X x → inside X (log e x).
Proof.
  intros He [Hh H]. split; [done|]. simpl. rewrite entered_snoc.
  destruct e; try done; by rewrite app_nil_r.
Qed.

Lemma run_body_quiet b : ∀ X x,
  forallb quiet_stmt b = true → W ≤ X → X + Z.of_nat (length b) ≤ int_max →
  inside X x →
  ∃ x', run_body next b x = Returned x' ∧ inside (X + Z.of_nat (length b)) x'.
Proof.
  induction b as [|s b IH]; intros X x Hq HW HX Hx.
  { exists x. split; [done|]. eapply inside_mono; [|done]. simpl. lia. }
  simpl in Hq. apply andb_prop in Hq as [Hs Hq].
  simpl length in *. destruct s; try done; simpl.
  - destruct (inside_next X x) as (x1 & -> & Hx1); [done|lia|done|]. simpl.
    destruct (IH (X + 1) x1) as (x' & -> & Hx'); [done|lia|lia|done|].
    exists x'. split; [done|]. eapply inside_mono; [|done]. lia.
  - destruct (IH X (Write b0 x)) as (x' & -> & Hx'); [done|lia|lia|..].
    { by apply inside_log. }
    exists x'. split; [done|]. eapply inside_mono; [|done]. lia.
Qed.

Lemma gzip_quiet x :
  W < int_max → inside W x →
  ∃ x', (let '(c1, cleanup) := wrapGzip x in defer cleanup (next c1))
        = Returned x' ∧ inside (W + 1) x'.
Proof.
  intros HW Hx. simpl.
  destruct (inside_next W (set_Writer (GzipWriter (gz_next x) (Writer x))
              (alloc_gz (log (EvSetHeader "Content-Encoding" "gzip") x))))
    as (x1 & -> & Hx1); [lia|done|..].
  { apply (inside_log _ (EvSetHeader "Content-Encoding" "gzip")) in Hx; [|done].
    exact Hx. }
  simpl. eexists. split; [done|]. by apply inside_log.
Qed.

Lemma call_quiet h x :
  quiet h = true → W + body_size h ≤ int_max → inside W x →
  ∃ x', call next h x = Returned x' ∧ inside (W + body_size h) x'.
Proof.
  intros Hq HW Hx. destruct h; simpl in *.
  - by apply run_body_quiet.
  - unfold GzipMiddleware. destruct (negb _).
    + apply inside_next; [lia..|done].
    + apply gzip_quiet; [lia|done].
  - unfold CompressionMiddleware. destruct (Contains _ _).
    + apply gzip_quiet; [lia|done].
    + apply inside_next; [lia..|done].
Qed.
End QuietBody.

Lemma Next_loop_quiet fuel : ∀ c,
  0 ≤ index c ≤ len (handlers c) →
  forallb quiet (rest_of c) = true →
  len (handlers c) + chain_weight (rest_of c) ≤ int_max →
  len (handlers c) - index c < Z.of_nat fuel →
  ∃ c', Next_loop fuel c = Returned c' ∧ handlers c' = handlers c ∧
        len (handlers c) ≤ index c' ≤ len (handlers c) + chain_weight (rest_of c) ∧
        entered (trace c') =
        entered (trace c) ++ seqZ (index c) (len (handlers c) - index c).
Proof.
  induction fuel as [|fuel IH]; intros c Hi Hq Hw Hf; [lia|].
  pose proof (chain_weight_nonneg (rest_of c)) as Hnn.
  destruct (decide (index c = len (handlers c))) as [Heq|Hne].
  { rewrite Next_loop_past by lia. exists c. split_and!; try done; [lia..|].
    rewrite seqZ_nil by lia. by rewrite app_nil_r. }
  assert (index c < len (handlers c)) as Hlt by lia.
  destruct (handler_at_is_Some (handlers c) (index c)) as [h Hh]; [lia|].
  assert (chain_list (handlers c) !! Z.to_nat (index c) = Some h) as Hl.
  { unfold handler_at in Hh. destruct (Z.ltb_spec (index c) 0); [lia|done]. }
  unfold rest_of in *. rewrite (drop_S _ _ _ Hl) in Hq, Hw, Hnn |- *.
  simpl in Hq, Hw |- *. apply andb_prop in Hq as [Hqh Hq].
  pose proof (body_size_nonneg h) as Hbs.
  pose proof (chain_weight_nonneg
                (drop (S (Z.to_nat (index c))) (chain_list (handlers c)))) as Hnn'.
  destruct (Z.ltb_spec (index c) (len (handlers c))); [|lia]. rewrite Hh.
  set (hs := handlers c) in *. set (i := index c) in *. set (n := len hs) in *.
  set (W := n + chain_weight (drop (S (Z.to_nat i)) (chain_list hs))) in *.
  set (next := λ c', Next_loop fuel (incr_index c')).
  assert (∀ x, handlers x = hs → index x = i →
            ∃ x', next x = Returned x' ∧ handlers x' = hs ∧ n ≤ index x' ≤ W ∧
                  entered (trace x') =
                  entered (trace x) ++ seqZ (i + 1) (n - i - 1)) as Hfirst.
  { intros x Hhx Hix. unfold next.
    assert (wrap_int (index x + 1) = i + 1) as Hwr.
    { rewrite Hix. apply wrap_int_id. unfold in_int, int_min. lia. }
    destruct (IH (incr_index x)) as (x' & Hx' & Hh' & Hi' & He'); simpl;
      rewrite ?Hwr, ?Hhx; fold n;
      rewrite ?Z2Nat.inj_add, ?Nat.add_1_r by lia; try done; try lia.
    exists x'. simpl in *.
    rewrite Hwr, Hhx in *. fold n in Hi', He'.
    rewrite Z2Nat.inj_add, Nat.add_1_r in Hi' by lia.
    split; [done|]. split; [done|]. split; [unfold W; lia|].
    rewrite He'. do 2 f_equal. lia. }
  assert (∀ x, handlers x = hs → n ≤ index x → index x < int_max →
            ∃ x', next x = Returned x' ∧ handlers x' = hs ∧
                  index x' = index x + 1 ∧
                  entered (trace x') = entered (trace x)) as Hagain.
  { intros x Hhx Hnx Hmx. unfold next. exists (incr_index x).
    assert (wrap_int (index x + 1) = index x + 1) as Hwr.
    { apply wrap_int_id. unfold in_int, int_min. lia. }
    destruct fuel as [|fuel']; [lia|].
    rewrite Next_loop_past; simpl; rewrite ?Hwr, ?Hhx; fold n; [done|lia]. }
  destruct (call_quiet next hs i n W (entered (trace c)) Hlt Hfirst Hagain
              h (log (EvEnter i) c)) as (x1 & -> & [Hh1 Hx1]); [done|lia|..].
  { split; [done|]. left. simpl. by rewrite entered_snoc. }
  simpl. fold (next x1).
  destruct Hx1 as [[Hi1 He1]|[Hi1 He1]].
  - destruct (Hfirst x1 Hh1 Hi1) as (x' & -> & Hh' & Hi' & He').
    exists x'. split_and!; try done; [lia..|].
    rewrite He', He1, <- app_assoc. f_equal.
    rewrite (seqZ_cons i) by lia. simpl. do 2 f_equal; lia.
  - destruct (Hagain x1 Hh1) as (x' & -> & Hh' & Hi' & He'); [lia..|].
    exists x'. split_and!; try done; [lia..|]. by rewrite He'.
Qed.

(** * The claims *)

(** ** C1 *)

(** C1, second half, fails: the first handler returns without calling
    [Next] and the second one runs all the same. *)
Lemma bare_return_runs_next_handler :
  calls_next (HUser [SWrite "a"]) = false ∧
  entered (outcome_trace
             (Next 3 (first_context [HUser [SWrite "a"]; HUser [SWrite "b"]])))
  = [0; 1].
Proof. split; vm_compute; reflexivity. Qed.

(** C1, as amended: a chain H1..Hn whose handlers neither abort nor
    panic runs H1,...,Hn in order, each exactly once, under the single
    initial [Next] of the dispatcher, whether a handler calls [Next] or
    returns without calling it. *)
Theorem chain_runs_in_order (req : Request) (l : list HandlerFunc) (fuel : nat) :
  forallb quiet l = true →
  Z.of_nat (length l) + chain_weight l ≤ int_max →
  (length l < fuel)%nat →
  ∃ c', Next fuel (set_handlers (Some l) (new_context req)) = Returned c' ∧
        entered (trace c') = seqZ 0 (Z.of_nat (length l)).
Proof.
  intros Hq Hw Hf. unfold Next.
  pose proof (Next_loop_quiet fuel
                (incr_index (set_handlers (Some l) (new_context req)))) as H.
  unfold rest_of, len in H. simpl in H.
  change (wrap_int (-1 + 1)) with 0 in H.
  change (Z.to_nat 0) with 0%nat in H. rewrite drop_0 in H.
  destruct H as (c' & Hc' & _ & _ & He); [lia|done|lia|lia|].
  exists c'. split; [done|]. rewrite He. simpl. f_equal. lia.
Qed.

Lemma chain_runs_in_order_witness :
  forallb quiet mixed_chain = true ∧
  Z.of_nat (length mixed_chain) + chain_weight mixed_chain ≤ int_max ∧
  (length mixed_chain < 4)%nat ∧
  ∃ c', Next 4 (set_handlers (Some mixed_chain) (new_context get_slash))
        = Returned c' ∧
        entered (trace c') = seqZ 0 (Z.of_nat (length mixed_chain)).
Proof.
  assert (forallb quiet mixed_chain = true) as H1 by reflexivity.
  assert (Z.of_nat (length mixed_chain) + chain_weight mixed_chain ≤ int_max)
    as H2 by (vm_compute; discriminate).
  assert (length mixed_chain < 4)%nat as H3 by (simpl; lia).
  split; [exact H1|]. split; [exact H2|]. split; [exact H3|].
  exact (chain_runs_in_order get_slash mixed_chain 4 H1 H2 H3).
Defined.

(** ** C2 *)

Lemma ready_dispatch fuel engine req :
  len (handlers (dispatch_context engine req)) < sentinel →
  len (handlers (dispatch_context engine req)) < Z.of_nat fuel →
  ready fuel (dispatch_context engine req).
Proof. intros H1 H2. unfold ready. split_and!; [done| |done]. done. Qed.

Lemma ServeHTTP_dispatched fuel engine req c' :
  safelyHandle fuel engine (dispatch_context engine req) = Returned c' →
  ServeHTTP fuel engine req SemSend =
  (chan_recv (chan_send 1 (ConcurrenceNumSem engine)), Returned c').
Proof. intros H. unfold ServeHTTP. by rewrite H. Qed.

Lemma recovered_trace o c1 : recovered o = Some c1 → outcome_trace o = trace c1.
Proof. destruct o; simpl; intros [= <-]; done. Qed.

Lemma filter_post_chain t :
  forallb chain_event t = true → List.filter is_post t = [].
Proof.
  induction t as [|e t IH]; simpl; [done|].
  intros [He Ht]%andb_prop. destruct e; simpl in *; auto; done.
Qed.

(** C2: a dispatched request returns from [safelyHandle]; its trace is
    that of pre-hook, form parsing and chain, then one [Post_Process],
    then what the post hook and the outer scope did; [Post_Process] is
    entered exactly once, and when anything before it panicked it finds
    the description of the panic in [c.Err]. *)
Theorem post_process_exactly_once (fuel : nat) (engine : Engine) (req : Request) :
  len (handlers (dispatch_context engine req)) < sentinel →
  len (handlers (dispatch_context engine req)) < Z.of_nat fuel →
  ∃ c' t1 e t2,
    (ServeHTTP fuel engine req SemSend).2 = Returned c' ∧
    outcome_trace (handle_body fuel engine (dispatch_context engine req))
    = EvPre :: t1 ∧
    trace c' = EvPre :: t1 ++ EvPost e :: t2 ∧
    forallb chain_event t1 = true ∧ forallb chain_event t2 = true ∧
    length (List.filter is_post (trace c')) = 1%nat ∧
    (∀ v cp, handle_body fuel engine (dispatch_context engine req)
             = Panicked v cp → e = Some v).
Proof.
  intros Hlen Hfuel.
  pose proof (ready_dispatch fuel engine req Hlen Hfuel) as Hr.
  destruct (safelyHandle_returns fuel engine _ Hr)
    as (c1 & c2 & c' & Hrec & H1 & H2 & Hin & Hret).
  destruct H1 as (_ & _ & _ & t1 & Ht1 & Hf1).
  destruct H2 as (_ & _ & _ & t2 & Ht2 & Hf2).
  simpl in Ht1, Ht2.
  assert (∃ t2', trace c' = trace c2 ++ t2' ∧ forallb chain_event t2' = true)
    as (t2' & Ht' & Hf').
  { destruct Hin as [[_ ->]|(v & _ & ->)].
    - exists []. by rewrite app_nil_r.
    - exists [EvWrite (Writer c2) v]. done. }
  exists c', t1, (Err c1), (t2 ++ t2').
  rewrite (ServeHTTP_dispatched _ _ _ _ Hret).
  rewrite (recovered_trace _ _ Hrec), Ht', Ht2, Ht1. simpl.
  split_and!; try done.
  - by rewrite <- !app_assoc.
  - by rewrite forallb_app, Hf2, Hf'.
  - rewrite <- !app_assoc. simpl.
    rewrite !List.filter_app. simpl. rewrite List.filter_app.
    by rewrite !filter_post_chain.
  - intros v cp Hp. rewrite Hp in Hrec. simpl in Hrec. by injection Hrec as <-.
Qed.

Lemma post_process_exactly_once_witness :
  len (handlers (dispatch_context panicking_engine get_slash)) < sentinel ∧
  len (handlers (dispatch_context panicking_engine get_slash)) < Z.of_nat 3 ∧
  ∃ c' t1 e t2,
    (ServeHTTP 3 panicking_engine get_slash SemSend).2 = Returned c' ∧
    outcome_trace (handle_body 3 panicking_engine
                     (dispatch_context panicking_engine get_slash))
    = EvPre :: t1 ∧
    trace c' = EvPre :: t1 ++ EvPost e :: t2 ∧
    forallb chain_event t1 = true ∧ forallb chain_event t2 = true ∧
    length (List.filter is_post (trace c')) = 1%nat ∧
    (∀ v cp, handle_body 3 panicking_engine
               (dispatch_context panicking_engine get_slash)
             = Panicked v cp → e = Some v).
Proof.
  assert (len (handlers (dispatch_context panicking_engine get_slash)) < sentinel)
    as H1 by (vm_compute; reflexivity).
  assert (len (handlers (dispatch_context panicking_engine get_slash))
          < Z.of_nat 3) as H2 by (vm_compute; reflexivity).
  split; [exact H1|]. split; [exact H2|].
  exact (post_process_exactly_once 3 panicking_engine get_slash H1 H2).
Defined.

(** ** C4 *)

(** C4: with a chain below the sentinel, a dispatched request returns
    and in its trace no handler is entered after an [Abort], whatever
    is called afterwards; so none positioned after the cursor of the
    call is. *)
Theorem no_handler_after_abort (fuel : nat) (engine : Engine) (req : Request) :
  len (handlers (dispatch_context engine req)) < sentinel →
  len (handlers (dispatch_context engine req)) < Z.of_nat fuel →
  ∃ c', (ServeHTTP fuel engine req SemSend).2 = Returned c' ∧
        ∀ t1 k t2, trace c' = t1 ++ EvAbort k :: t2 →
                   ∀ j, EvEnter j ∉ t2.
Proof.
  intros Hlen Hfuel.
  pose proof (ready_dispatch fuel engine req Hlen Hfuel) as Hr.
  destruct (safelyHandle_returns fuel engine _ Hr)
    as (c1 & c2 & c' & _ & _ & _ & _ & Hret).
  exists c'. rewrite (ServeHTTP_dispatched _ _ _ _ Hret). split; [done|].
  assert (holds (abort_inv (handlers (dispatch_context engine req)) 0)
                (abort_inv (handlers (dispatch_context engine req)) 0) True
                (safelyHandle fuel engine (dispatch_context engine req)))
    as Hinv.
  { apply safelyHandle_abort_inv; [lia|].
    unfold abort_inv. split_and!; done. }
  rewrite Hret in Hinv. destruct Hinv as (_ & _ & Hno & _).
  by apply no_enter_after_abort_split.
Qed.

Lemma no_handler_after_abort_witness :
  len (handlers (dispatch_context aborting_engine get_slash)) < sentinel ∧
  len (handlers (dispatch_context aborting_engine get_slash)) < Z.of_nat 3 ∧
  ∃ c', (ServeHTTP 3 aborting_engine get_slash SemSend).2 = Returned c' ∧
        ∀ t1 k t2, trace c' = t1 ++ EvAbort k :: t2 →
                   ∀ j, EvEnter j ∉ t2.
Proof.
  assert (len (handlers (dispatch_context aborting_engine get_slash)) < sentinel)
    as H1 by (vm_compute; reflexivity).
  assert (len (handlers (dispatch_context aborting_engine get_slash))
          < Z.of_nat 3) as H2 by (vm_compute; reflexivity).
  split; [exact H1|]. split; [exact H2|].
  exact (no_handler_after_abort 3 aborting_engine get_slash H1 H2).
Defined.

(** ** C6 *)

(** C6: when the timeout case of the [select] is taken, the only thing
    that happens to the request is one write of the text
    [server overload] to the transport's writer: no chain is looked up
    for the context, no hook and no handler is entered, and the permit
    pool is as before. *)
Theorem shed_request_gets_overload (fuel : nat) (engine : Engine) (req : Request) :
  ∃ c', ServeHTTP fuel engine req TimeoutRecv
        = (ConcurrenceNumSem engine, Returned c') ∧
        trace c' = [EvWrite Transport "server overload"] ∧
        handlers c' = None ∧ Err c' = None ∧ index c' = -1.
Proof. eexists. split; [reflexivity|]. done. Qed.

(** ** C7 *)

Lemma inner_scope_recovered fuel engine o c1 :
  recovered o = Some c1 →
  inner_scope fuel engine o =
  run_hook fuel (Post_Process engine) (log (EvPost (Err c1)) c1).
Proof. destruct o; simpl; intros [= <-]; done. Qed.

(** C7, last part, fails: the panic of the handler is contained by the
    inner scope and the request ends without any write. *)
Lemma contained_panic_writes_nothing :
  Err <$> final (ServeHTTP 2 silent_engine get_slash SemSend).2
  = Some (Some "boom") ∧
  trace <$> final (ServeHTTP 2 silent_engine get_slash SemSend).2
  = Some [EvPre; EvEnter 0; EvPost (Some "boom")] ∧
  writes (outcome_trace (ServeHTTP 2 silent_engine get_slash SemSend).2) = [].
Proof. split_and!; vm_compute; reflexivity. Qed.

(** C7, as amended: whatever panics before the post hook is recovered by
    the inner scope, which then runs the post hook in some context [c1];
    when the post hook panics with [v], the outer scope recovers and
    [safelyHandle] returns after one more event, the write of [v] to
    the writer the context holds then; when the post hook returns,
    [safelyHandle] returns with nothing added.  No panic leaves
    [safelyHandle], and the permit is given back. *)
Theorem outer_scope_writes_description
    (fuel : nat) (engine : Engine) (req : Request) :
  len (handlers (dispatch_context engine req)) < sentinel →
  len (handlers (dispatch_context engine req)) < Z.of_nat fuel →
  ∃ c1 c',
    recovered (handle_body fuel engine (dispatch_context engine req)) = Some c1 ∧
    ServeHTTP fuel engine req SemSend
    = (chan_recv (chan_send 1 (ConcurrenceNumSem engine)), Returned c') ∧
    match run_hook fuel (Post_Process engine) (log (EvPost (Err c1)) c1) with
    | Panicked v cp => c' = Write v cp ∧
                       trace c' = trace cp ++ [EvWrite (Writer cp) v]
    | Returned c2 => c' = c2
    | OutOfFuel => False
    end.
Proof.
  intros Hlen Hfuel.
  pose proof (ready_dispatch fuel engine req Hlen Hfuel) as Hr.
  destruct (safelyHandle_returns fuel engine _ Hr)
    as (c1 & c2 & c' & Hrec & _ & _ & Hin & Hret).
  exists c1, c'. split; [done|].
  split; [by apply ServeHTTP_dispatched|].
  rewrite (inner_scope_recovered _ _ _ _ Hrec) in Hin.
  destruct Hin as [[-> ->]|(v & -> & ->)]; done.
Qed.

Lemma outer_scope_writes_description_witness :
  len (handlers (dispatch_context failing_post_engine get_slash)) < sentinel ∧
  len (handlers (dispatch_context failing_post_engine get_slash)) < Z.of_nat 2 ∧
  ∃ c1 c',
    recovered (handle_body 2 failing_post_engine
                 (dispatch_context failing_post_engine get_slash)) = Some c1 ∧
    ServeHTTP 2 failing_post_engine get_slash SemSend
    = (chan_recv (chan_send 1 (ConcurrenceNumSem failing_post_engine)),
       Returned c') ∧
    match run_hook 2 (Post_Process failing_post_engine)
            (log (EvPost (Err c1)) c1) with
    | Panicked v cp => c' = Write v cp ∧
                       trace c' = trace cp ++ [EvWrite (Writer cp) v]
    | Returned c2 => c' = c2
    | OutOfFuel => False
    end.
Proof.
  assert (len (handlers (dispatch_context failing_post_engine get_slash))
          < sentinel) as H1 by (vm_compute; reflexivity).
  assert (len (handlers (dispatch_context failing_post_engine get_slash))
          < Z.of_nat 2) as H2 by (vm_compute; reflexivity).
  split; [exact H1|]. split; [exact H2|].
  exact (outer_scope_writes_description 2 failing_post_engine get_slash H1 H2).
Defined.

(** ** C10 *)

Lemma write_all_fields bs : ∀ c,
  index (write_all bs c) = index c ∧ handlers (write_all bs c) = handlers c ∧
  trace (write_all bs c) = trace c ++ map (EvWrite (Writer c)) bs.
Proof.
  induction bs as [|b bs IH]; intros c; simpl.
  - by rewrite app_nil_r.
  - destruct (IH (Write b c)) as (-> & -> & ->). simpl.
    by rewrite <- app_assoc.
Qed.

Lemma run_body_writes next b : ∀ c,
  forallb is_write b = true →
  run_body next b c = Returned (write_all (written b) c).
Proof.
  induction b as [|s b IH]; intros c Hb; [done|].
  simpl in Hb. apply andb_prop in Hb as [Hs Hb].
  destruct s; try done. simpl. by apply IH.
Qed.

(** A loop that finds a handler under the cursor enters it first. *)
Lemma Next_loop_enters_first fuel c :
  in_int (index c) → 0 ≤ index c < len (handlers c) →
  Next_loop fuel c ≠ OutOfFuel →
  ∃ t, outcome_trace (Next_loop fuel c) = trace c ++ EvEnter (index c) :: t.
Proof.
  intros Hint Hi Hno. destruct fuel as [|fuel]; [done|]. simpl in *.
  destruct (Z.ltb_spec (index c) (len (handlers c))) as [_|Hge]; [|lia].
  destruct (handler_at_is_Some (handlers c) (index c) Hi) as [h Hh].
  rewrite Hh in *.
  set (c1 := log (EvEnter (index c)) c) in *.
  assert (∀ x, follows c1 x →
            holds (follows c1) (follows c1) True
                  (Next_loop fuel (incr_index x))) as Hnext.
  { intros x Hx. apply Next_loop_follows.
    apply follows_set_index; [apply wrap_int_in_int|done]. }
  assert (holds (follows c1) (follows c1) True
            (bind (call (λ c', Next_loop fuel (incr_index c')) h c1)
                  (λ c', Next_loop fuel (incr_index c')))) as H.
  { apply holds_bind; [|done].
    apply call_rule; auto.
    - intros x Hx. apply follows_set_index; [apply sentinel_in_int|].
      by apply follows_log.
    - intros b x Hx. by apply follows_log.
    - apply follows_wrapGzip.
    - intros gz x Hx. by apply follows_log.
    - intros gz x Hx. by apply follows_log.
    - by apply follows_refl. }
  destruct (bind _ _) as [x|v x|]; [| |done]; simpl in *;
    destruct H as (_ & _ & _ & t & -> & _);
    exists t; unfold c1; simpl; by rewrite <- app_assoc.
Qed.

(** C10: (1) when the loop of [Next] is at position [k] and handler [k]
    only writes (it returns without calling [Next] or [Abort]), the
    loop advances the cursor and enters handler [k + 1] right after the
    writes of handler [k]; (2) a run of the chain ends, and when it
    returns (so nothing panicked) and holds no [Abort], every handler of
    the chain has been entered, in order, once. *)
Theorem bare_return_goes_on :
  (∀ (fuel : nat) (c : Context) (k : Z) (body : list stmt),
     index c = k →
     handler_at (handlers c) k = Some (HUser body) →
     forallb is_write body = true →
     k + 1 < len (handlers c) → len (handlers c) ≤ sentinel →
     len (handlers c) - k < Z.of_nat fuel →
     Next_loop fuel c ≠ OutOfFuel ∧
     ∃ t, outcome_trace (Next_loop fuel c)
          = trace c ++ EvEnter k :: map (EvWrite (Writer c)) (written body)
                    ++ EvEnter (k + 1) :: t) ∧
  (∀ (fuel : nat) (req : Request) (l : list HandlerFunc),
     Z.of_nat (length l) ≤ sentinel → (length l < fuel)%nat →
     Next fuel (set_handlers (Some l) (new_context req)) ≠ OutOfFuel ∧
     ∀ c', Next fuel (set_handlers (Some l) (new_context req)) = Returned c' →
           aborted (trace c') = false →
           entered (trace c') = seqZ 0 (Z.of_nat (length l))).
Proof.
  split.
  - intros fuel c k body Hk Hh Hb Hlt Hmax Hfuel.
    pose proof (handler_at_Some _ _ _ Hh) as Hr.
    assert (in_int k) as Hin.
    { unfold in_int, int_min, int_max. unfold sentinel in Hmax. lia. }
    assert (Next_loop fuel c ≠ OutOfFuel) as Hno.
    { apply Next_loop_terminates; [done|by rewrite Hk|].
      unfold enough_fuel. rewrite Hk. split; [|lia].
      destruct fuel; [lia|lia]. }
    split; [done|].
    destruct fuel as [|fuel]; [done|]. simpl in *.
    destruct (Z.ltb_spec (index c) (len (handlers c))) as [_|Hge]; [|lia].
    rewrite Hk, Hh in *. simpl in *.
    rewrite run_body_writes in * by done. simpl in *.
    destruct (write_all_fields (written body) (log (EvEnter k) c))
      as (Hi & Hhs & Ht).
    simpl in Hi, Hhs, Ht.
    set (c2 := incr_index (write_all (written body) (log (EvEnter k) c))) in *.
    assert (index c2 = k + 1) as Hi2.
    { unfold c2. simpl. rewrite Hi, Hk. apply wrap_int_id.
      unfold in_int, int_min, int_max in *. unfold sentinel in Hmax. lia. }
    assert (handlers c2 = handlers c) as Hh2 by done.
    destruct (Next_loop_enters_first fuel c2) as [t Hto]; [..|done|].
    { rewrite Hi2. unfold in_int, int_min, int_max in *.
      unfold sentinel in Hmax. lia. }
    { rewrite Hi2, Hh2. lia. }
    exists t. rewrite Hto, Hi2. unfold c2. simpl. rewrite Ht.
    by rewrite <- !app_assoc.
  - intros fuel req l Hlen Hfuel. split.
    + apply Next_terminates; simpl; unfold len; simpl;
        [done|vm_compute; split; discriminate|lia].
    + intros c' Hret Hna. unfold Next in Hret.
      apply Next_loop_enters_all in Hret; [|apply wrap_int_in_int|done..].
      rewrite Hret. simpl. change (wrap_int (-1 + 1)) with 0.
      unfold len. simpl. f_equal. lia.
Qed.

Lemma bare_return_goes_on_witness :
  (Next_loop 3 (incr_index (first_context two_writers)) ≠ OutOfFuel ∧
   ∃ t, outcome_trace (Next_loop 3 (incr_index (first_context two_writers)))
        = trace (incr_index (first_context two_writers))
          ++ EvEnter 0 :: map (EvWrite Transport) (written [SWrite "a"])
          ++ EvEnter (0 + 1) :: t) ∧
  (Next 3 (set_handlers (Some two_writers) (new_context get_slash))
   ≠ OutOfFuel ∧
   ∀ c', Next 3 (set_handlers (Some two_writers) (new_context get_slash))
         = Returned c' →
         aborted (trace c') = false →
         entered (trace c') = seqZ 0 (Z.of_nat (length two_writers))).
Proof.
  split.
  - apply (proj1 bare_return_goes_on 3%nat (incr_index (first_context two_writers))
             0 [SWrite "a"]);
      [reflexivity|reflexivity|reflexivity|reflexivity
      |vm_compute; discriminate|vm_compute; reflexivity].
  - apply (proj2 bare_return_goes_on 3%nat get_slash two_writers);
      [vm_compute; discriminate|simpl; lia].
Defined.

(** ** C5 *)

Lemma wraps_refl w : wraps w w.
Proof. destruct w; by left. Qed.

Lemma wraps_depth w w' : wraps w w' → (depth w ≤ depth w')%nat.
Proof.
  induction w' as [|gz u IH]; simpl.
  - intros [<-|[]]. done.
  - intros [<-|H]; [done|]. specialize (IH H). lia.
Qed.

Lemma wraps_above gz w w' : wraps (GzipWriter gz w) w' → w' ≠ w.
Proof. intros H%wraps_depth ->. simpl in H. lia. Qed.

(** No handler takes a writer off the context. *)
Lemma Next_loop_wraps fuel w c :
  wraps w (Writer c) →
  holds (λ x, wraps w (Writer x)) (λ x, wraps w (Writer x)) True
        (Next_loop fuel c).
Proof.
  apply (Next_loop_rule (λ x, wraps w (Writer x)) (λ x, wraps w (Writer x))
           (λ x, wraps w (Writer x))); auto.
  intros x Hx. simpl. by right.
Qed.

(** C5 fails where it says that the original writer is put back: after
    the request the compressor is closed and [c.Writer] is still the
    gzip writer. *)
Lemma gzip_writer_left_in_place :
  Writer (dispatch_context gzip_engine get_slash) = Transport ∧
  Writer <$> final (ServeHTTP 3 gzip_engine get_slash SemSend).2
  = Some (GzipWriter 0 Transport) ∧
  trace <$> final (ServeHTTP 3 gzip_engine get_slash SemSend).2
  = Some [EvPre; EvEnter 0; EvSetHeader "Content-Encoding" "gzip";
          EvEnter 1; EvWrite (GzipWriter 0 Transport) "hello";
          EvGzClose 0; EvPost None].
Proof. split_and!; vm_compute; reflexivity. Qed.

(** A handler ahead of the middleware that writes after its [Next]
    writes to the gzip writer that has been closed. *)
Example write_after_close :
  trace <$> final (Next 4 (first_context mixed_chain))
  = Some [EvEnter 0; EvWrite Transport "a"; EvEnter 1;
          EvSetHeader "Content-Encoding" "gzip"; EvEnter 2;
          EvWrite (GzipWriter 0 Transport) "b"; EvGzClose 0;
          EvWrite (GzipWriter 0 Transport) "z"].
Proof. vm_compute. reflexivity. Qed.

(** C5, as amended: when either compression middleware runs for a
    request that advertises gzip, then on every way out of it (the
    rest of the chain returned, or a panic is passing through) the last
    thing done is the close of the gzip writer it created, and
    [c.Writer] is not the writer it found: it is still its gzip writer,
    or a later one on top of it. *)
Theorem gzip_closed_on_every_path
    (fuel : nat) (c : Context) (h : HandlerFunc) :
  h = HGzip ∨ h = HCompression →
  Contains (AcceptEncoding (Request_ c)) "gzip" = true →
  len (handlers c) < sentinel → in_int (index c) → -1 ≤ index c →
  len (handlers c) < Z.of_nat fuel →
  ∃ c', final (call (λ c', Next_loop fuel (incr_index c')) h c) = Some c' ∧
        last (trace c') = Some (EvGzClose (gz_next c)) ∧
        wraps (GzipWriter (gz_next c) (Writer c)) (Writer c') ∧
        Writer c' ≠ Writer c.
Proof.
  intros Hh Hgz Hlen Hint Hidx Hfuel.
  set (c1 := (wrapGzip c).1).
  assert (call (λ c', Next_loop fuel (incr_index c')) h c
          = defer (gzipWriter_Close (gz_next c))
                  (Next_loop fuel (incr_index c1))) as ->.
  { destruct Hh as [-> | ->]; simpl;
      unfold GzipMiddleware, CompressionMiddleware; by rewrite Hgz. }
  assert (Next_loop fuel (incr_index c1) ≠ OutOfFuel) as Hno.
  { apply Next_loop_terminates; simpl; [lia|apply wrap_int_in_int|].
    unfold enough_fuel. simpl. split; [unfold len in *; lia|].
    destruct (wrap_int_succ (index c) Hint) as [[_ ->]|[_ ->]];
      [lia|unfold int_min; lia]. }
  pose proof (Next_loop_wraps fuel (GzipWriter (gz_next c) (Writer c))
                (incr_index c1) (wraps_refl _)) as Hw.
  destruct (Next_loop fuel (incr_index c1)) as [x|v x|]; [| |done];
    simpl in *; eexists; (split; [done|]); simpl;
    (split; [by rewrite last_snoc|]); (split; [done|]);
    by eapply wraps_above.
Qed.

Lemma gzip_closed_on_every_path_witness :
  (HGzip = HGzip ∨ HGzip = HCompression) ∧
  Contains (AcceptEncoding (Request_ at_gzip)) "gzip" = true ∧
  len (handlers at_gzip) < sentinel ∧ in_int (index at_gzip) ∧
  -1 ≤ index at_gzip ∧ len (handlers at_gzip) < Z.of_nat 3 ∧
  ∃ c', final (call (λ c', Next_loop 3 (incr_index c')) HGzip at_gzip)
        = Some c' ∧
        last (trace c') = Some (EvGzClose (gz_next at_gzip)) ∧
        wraps (GzipWriter (gz_next at_gzip) (Writer at_gzip)) (Writer c') ∧
        Writer c' ≠ Writer at_gzip.
Proof.
  assert (HGzip = HGzip ∨ HGzip = HCompression) as H1 by (by left).
  assert (Contains (AcceptEncoding (Request_ at_gzip)) "gzip" = true) as H2
      by reflexivity.
  assert (len (handlers at_gzip) < sentinel) as H3 by (vm_compute; reflexivity).
  assert (in_int (index at_gzip)) as H4 by (vm_compute; split; discriminate).
  assert (-1 ≤ index at_gzip) as H5 by (vm_compute; discriminate).
  assert (len (handlers at_gzip) < Z.of_nat 3) as H6
      by (vm_compute; reflexivity).
  split_and!; try done.
  exact (gzip_closed_on_every_path 3 at_gzip HGzip H1 H2 H3 H4 H5 H6).
Defined.

(** ** C3 *)

(** What the scan of [ServeHTTP] computes in general: the chain of the
    first entry with the method of the request whose node passes the
    test of the loop. *)
Lemma resolve_first ts m p :
  resolve ts m p =
  match List.find (λ v, node_accepts (root v) p && String.eqb (method v) m) ts with
  | Some v => node_handlers (root v)
  | None => None
  end.
Proof.
  induction ts as [|v ts IH]; simpl; [done|].
  destruct (node_accepts (root v) p); simpl; [|done].
  by destruct (String.eqb (method v) m).
Qed.

(** Away from the empty path the scan is the described resolution. *)
Lemma resolve_as_described ts m p :
  Forall (λ v, registered (root v)) ts → p ≠ "" →
  resolve ts m p = resolve_described ts m p.
Proof.
  intros Hts Hp. induction Hts as [|v ts Hv _ IH]; simpl; [done|].
  assert (node_accepts (root v) p = matcher_accepts (root v) p) as ->.
  { destruct Hv as [(q & hs & ->)|(re & hs & ->)];
      unfold node_accepts, matcher_accepts; simpl.
    - apply orb_false_r.
    - by destruct p. }
  rewrite IH. rewrite andb_comm.
  destruct (matcher_accepts _ _); simpl; [|done].
  by destruct (String.eqb _ _).
Qed.

(** C3 fails on the empty path: the only entry is a pattern that does
    not match it, the described resolution finds nothing, and the scan
    of [ServeHTTP] returns the chain of the pattern, because the [path]
    of a pattern node is the empty string. *)
Theorem pattern_route_takes_empty_path :
  registered (root {| method := "GET";
                      root := pattern_node static_only
                                (Some [HUser [SWrite "file"]]) |}) ∧
  MatchString static_only "" = false ∧
  resolve_described pattern_table "GET" "" = None ∧
  resolve pattern_table "GET" "" = Some [HUser [SWrite "file"]] ∧
  trace <$> final (ServeHTTP 2 {| trees := pattern_table;
                                  ConcurrenceNumSem := {| cap := 5; buf := [] |};
                                  Pre_Process := []; Post_Process := [] |}
                     get_empty_path SemSend).2
  = Some [EvPre; EvEnter 0; EvWrite Transport "file"; EvPost None].
Proof.
  split; [right; by eexists _, _|].
  split_and!; vm_compute; reflexivity.
Qed.

(** ** C8 *)

Lemma view_length st s : ok_slice st s → length (view (arrays st) s) = slen s.
Proof.
  unfold ok_slice, view. destruct (arr s) as [a|].
  - intros [_ H]. rewrite length_take. lia.
  - by intros [-> _].
Qed.

Section RouterFacts.
Variable growcap : nat → nat → nat.

Lemma append_spec st s xs :
  ok_slice st s →
  view (arrays (append growcap st s xs).1) (append growcap st s xs).2
  = view (arrays st) s ++ xs ∧
  groups (append growcap st s xs).1 = groups st ∧
  table (append growcap st s xs).1 = table st ∧
  next_group (append growcap st s xs).1 = next_group st ∧
  (fresh st ≤ fresh (append growcap st s xs).1)%nat ∧
  ok_slice (append growcap st s xs).1 (append growcap st s xs).2 ∧
  (arr (append growcap st s xs).2 = arr s ∨
   (arr (append growcap st s xs).2 = Some (fresh st) ∧
    fresh (append growcap st s xs).1 = S (fresh st))) ∧
  (∀ t, apart st s t →
        ok_slice (append growcap st s xs).1 t ∧
        view (arrays (append growcap st s xs).1) t = view (arrays st) t).
Proof.
  intros Hs. pose proof (view_length st s Hs) as Hvl.
  unfold append. destruct (decide _) as [Hfit|Hgrow].
  - unfold ok_slice in Hs. destruct (arr s) as [a|] eqn:Ha.
    + destruct Hs as [Hlt Hle]. simpl.
      set (old := default [] (arrays st !! a)) in *.
      assert (length (take (slen s) old) = slen s) as Htl.
      { rewrite length_take. lia. }
      split_and!; try done.
      * unfold view. simpl. rewrite lookup_insert_eq. simpl.
        rewrite Ha. fold old.
        rewrite take_app_ge by lia. rewrite Htl.
        f_equal. rewrite take_app_ge by lia.
        replace (slen s + length xs - slen s - length xs)%nat with 0%nat by lia.
        simpl. by rewrite app_nil_r.
      * unfold ok_slice. simpl. split; [done|].
        rewrite lookup_insert_eq. simpl.
        rewrite !length_app, Htl. lia.
      * by left.
      * intros t [Ht Hne]. unfold ok_slice, view in *. simpl.
        destruct (arr t) as [b|]; [|done].
        assert (a ≠ b) as Hab by (intros ->; by apply (Hne b)).
        by rewrite lookup_insert_ne.
    + destruct Hs as [Hl Hc]. simpl.
      assert (xs = []) as -> by (apply length_zero_iff_nil; lia).
      unfold ok_slice, view. rewrite Ha. split_and!; try done.
      * by left.
      * by intros t [Ht _].
  - simpl. split_and!; try done; try lia.
    + unfold view at 1. simpl. rewrite lookup_insert_eq. simpl.
      rewrite take_ge; [done|]. rewrite length_app, Hvl. lia.
    + unfold ok_slice. simpl. split; [lia|].
      rewrite lookup_insert_eq. simpl. rewrite length_app, Hvl. lia.
    + by right.
    + intros t [Ht _]. unfold ok_slice, view in *. simpl.
      destruct (arr t) as [b|]; [|done]. destruct Ht as [Hb Hle].
      rewrite lookup_insert_ne by lia. split; [|done]. split; [lia|done].
Qed.
End RouterFacts.

Lemma wf_apart st o1 o2 s t :
  wf st → owned st o1 = Some t → owned st o2 = Some s → o1 ≠ o2 →
  apart st s t.
Proof.
  intros (Hok & Hdis & _) Ht Hs Hne. split; [by eapply Hok|].
  intros a Ha Hsa. apply Hne. by eapply Hdis.
Qed.

Lemma wf_apart_nil st o t : wf st → owned st o = Some t → apart st nil_slice t.
Proof. intros (Hok & _) Ht. split; [by eapply Hok|]. done. Qed.

Lemma ok_nil_slice st : ok_slice st nil_slice.
Proof. done. Qed.

Lemma chains_lookup st i ch :
  chains st !! i = Some ch ↔
  ∃ e, table st !! i = Some e ∧ ch = view (arrays st) (e_handlers e).
Proof.
  unfold chains. rewrite list_lookup_fmap.
  destruct (table st !! i) as [e|]; simpl; split.
  - intros [= <-]. eauto.
  - intros (e' & [= <-] & ->). done.
  - done.
  - by intros (e' & ? & _).
Qed.

Section RouterSteps.
Variable growcap : nat → nat → nat.

Lemma append_inv st s xs st1 s1 :
  append growcap st s xs = (st1, s1) → ok_slice st s →
  view (arrays st1) s1 = view (arrays st) s ++ xs ∧
  groups st1 = groups st ∧ table st1 = table st ∧
  next_group st1 = next_group st ∧ (fresh st ≤ fresh st1)%nat ∧
  ok_slice st1 s1 ∧
  (arr s1 = arr s ∨ (arr s1 = Some (fresh st) ∧ fresh st1 = S (fresh st))) ∧
  (∀ t, apart st s t →
        ok_slice st1 t ∧ view (arrays st1) t = view (arrays st) t).
Proof.
  intros E Hs. pose proof (append_spec growcap st s xs Hs) as H.
  by rewrite E in H.
Qed.

(** A slice appended to the nil slice shares no array with a slice that
    was there before. *)
Lemma append_nil_apart st xs st1 s1 t :
  append growcap st nil_slice xs = (st1, s1) → ok_slice st t →
  apart st1 s1 t ∧ view (arrays st1) t = view (arrays st) t.
Proof.
  intros E Ht.
  destruct (append_inv _ _ _ _ _ E (ok_nil_slice st))
    as (_ & _ & _ & _ & _ & _ & Harr & Hfr).
  destruct (Hfr t) as [Hok Hv]; [by split|].
  split; [|done]. split; [done|].
  intros a Ha Hs1. destruct Harr as [Hn|[Hn _]]; rewrite Hn in Hs1; [done|].
  injection Hs1 as <-. unfold ok_slice in Ht. rewrite Ha in Ht. lia.
Qed.

Lemma Use_frame st g mws :
  wf st → is_Some (groups st !! g) →
  wf (Use growcap g mws st) ∧ frame_of (OpUse g mws) st (Use growcap g mws st).
Proof.
  intros Hwf [sg Hg]. unfold Use, group_handlers. rewrite Hg. simpl.
  destruct (append growcap st sg mws) as [st1 s1] eqn:E.
  pose proof Hwf as (Hok & Hdis & Hid).
  destruct (append_inv _ _ _ _ _ E (Hok (InGroup g) sg Hg))
    as (Hv & Hgr & Htb & Hng & Hfr & Hok1 & Harr & Hframe).
  assert (∀ o t, owned st o = Some t → o ≠ InGroup g →
            ok_slice st1 t ∧ view (arrays st1) t = view (arrays st) t ∧
            (∀ a, arr t = Some a → arr s1 ≠ Some a)) as Hothers.
  { intros o t Ht Hne.
    pose proof (wf_apart st o (InGroup g) sg t Hwf Ht Hg Hne) as Hap.
    destruct (Hframe t Hap) as [? ?]. split_and!; [done..|].
    intros a Ha Hs1. destruct Harr as [Hn|[Hn _]]; rewrite Hn in Hs1.
    - by apply (proj2 Hap a).
    - injection Hs1 as <-. destruct Hap as [Hokt _].
      unfold ok_slice in Hokt. rewrite Ha in Hokt. lia. }
  assert (∀ o t, owned (set_group g s1 st1) o = Some t →
            (o = InGroup g ∧ t = s1) ∨ (o ≠ InGroup g ∧ owned st o = Some t))
    as Hown.
  { intros [g'|i] t; simpl.
    - destruct (decide (g' = g)) as [->|Hne].
      + rewrite lookup_insert_eq. intros [= <-]. by left.
      + rewrite lookup_insert_ne, Hgr by done. intros ?. right.
        split; [congruence|done].
    - rewrite Htb. intros ?. by right. }
  split; [split_and!|split_and!].
  - intros o t [[-> ->]|[Hne Ht]]%Hown; [done|].
    by destruct (Hothers o t Ht Hne) as [? _].
  - intros o1 o2 t1 t2 a [[-> ->]|[Hne1 Ht1]]%Hown [[-> ->]|[Hne2 Ht2]]%Hown
      Ha1 Ha2; [done| | |by eapply Hdis].
    + destruct (Hothers o2 t2 Ht2 Hne2) as (_ & _ & H). by destruct (H a).
    + destruct (Hothers o1 t1 Ht1 Hne1) as (_ & _ & H). by destruct (H a).
  - intros g'. simpl. rewrite Hng. destruct (decide (g' = g)) as [->|Hne].
    + intros _. apply Hid. by eexists.
    + rewrite lookup_insert_ne, Hgr by done. apply Hid.
  - intros g' [t Ht] Hu. simpl in Hu.
    assert (g' ≠ g) as Hne by (by apply bool_decide_eq_false in Hu).
    unfold prefix_of, group_handlers. simpl.
    rewrite lookup_insert_ne, Hgr by done. split; [done|]. rewrite Ht. simpl.
    destruct (Hothers (InGroup g') t Ht) as (_ & ? & _); [congruence|done].
  - intros g' Hg'. simpl. destruct (decide (g' = g)) as [->|Hne].
    + rewrite lookup_insert_eq. by eexists.
    + by rewrite lookup_insert_ne, Hgr.
  - intros i ch (e & He & ->)%chains_lookup. apply chains_lookup.
    exists e. simpl. rewrite Htb. split; [done|].
    destruct (Hothers (InTable i) (e_handlers e)) as (_ & ? & _);
      [by simpl; rewrite He|done|done].
Qed.

Lemma Group_frame st g :
  wf st → is_Some (groups st !! g) →
  wf (Group growcap g st).1 ∧
  frame_of (OpGroup g) st (Group growcap g st).1 ∧
  groups st !! (Group growcap g st).2 = None ∧
  prefix_of (Group growcap g st).1 (Group growcap g st).2 = prefix_of st g.
Proof.
  intros Hwf Hg. unfold Group.
  destruct (append growcap st nil_slice (prefix_of st g)) as [st1 s1] eqn:E.
  simpl. pose proof Hwf as (Hok & Hdis & Hid).
  destruct (append_inv _ _ _ _ _ E (ok_nil_slice st))
    as (Hv & Hgr & Htb & Hng & Hfr & Hok1 & Harr & _).
  assert (groups st !! next_group st = None) as Hnew.
  { destruct (groups st !! next_group st) eqn:Hx; [|done].
    assert (next_group st < next_group st)%nat; [|lia].
    apply Hid. by eexists. }
  set (st' := {| arrays := arrays st1; fresh := fresh st1;
                 groups := <[next_group st1 := s1]> (groups st1);
                 next_group := S (next_group st1); table := table st1 |}).
  assert (∀ o t, owned st o = Some t →
            ok_slice st1 t ∧ view (arrays st1) t = view (arrays st) t ∧
            (∀ a, arr t = Some a → arr s1 ≠ Some a)) as Hothers.
  { intros o t Ht.
    destruct (append_nil_apart _ _ _ _ t E (Hok o t Ht)) as [[? ?] ?]. done. }
  assert (∀ o t, owned st' o = Some t →
            (o = InGroup (next_group st) ∧ t = s1) ∨
            (o ≠ InGroup (next_group st) ∧ owned st o = Some t)) as Hown.
  { intros [g'|i] t; simpl; rewrite ?Hng, ?Hgr, ?Htb.
    - destruct (decide (g' = next_group st)) as [->|Hne].
      + rewrite lookup_insert_eq. intros [= <-]. by left.
      + rewrite lookup_insert_ne by done. intros ?. right.
        split; [congruence|done].
    - intros ?. by right. }
  split_and!; [split_and!|split_and!|..].
  - intros o t [[-> ->]|[Hne Ht]]%Hown; [done|].
    by destruct (Hothers o t Ht) as [? _].
  - intros o1 o2 t1 t2 a [[-> ->]|[Hne1 Ht1]]%Hown [[-> ->]|[Hne2 Ht2]]%Hown
      Ha1 Ha2; [done| | |by eapply Hdis].
    + destruct (Hothers o2 t2 Ht2) as (_ & _ & H). by destruct (H a).
    + destruct (Hothers o1 t1 Ht1) as (_ & _ & H). by destruct (H a).
  - intros g'. simpl. rewrite Hng, Hgr.
    destruct (decide (g' = next_group st)) as [->|Hne]; [lia|].
    rewrite lookup_insert_ne by done. intros H%Hid. lia.
  - intros g' [t Ht] _.
    assert (g' ≠ next_group st) as Hne by (intros ->; congruence).
    unfold prefix_of, group_handlers. simpl.
    rewrite Hng, Hgr, lookup_insert_ne by done. split; [done|].
    rewrite Ht. simpl. by destruct (Hothers (InGroup g') t Ht) as (_ & ? & _).
  - intros g' Hg'. simpl. rewrite Hng, Hgr.
    destruct (decide (g' = next_group st)) as [->|Hne].
    + rewrite lookup_insert_eq. by eexists.
    + by rewrite lookup_insert_ne.
  - intros i ch (e & He & ->)%chains_lookup. apply chains_lookup.
    exists e. simpl. rewrite Htb. split; [done|].
    destruct (Hothers (InTable i) (e_handlers e)) as (_ & ? & _);
      [by simpl; rewrite He|done].
  - by rewrite Hng.
  - unfold prefix_of at 1, group_handlers. simpl.
    rewrite lookup_insert_eq. simpl. by rewrite Hv.
Qed.

Lemma add_route_frame st g m p re h o :
  wf st → is_Some (groups st !! g) → (∀ g', uses g' o = false) →
  wf (add_route growcap g m p re h st) ∧
  frame_of o st (add_route growcap g m p re h st) ∧
  chains (add_route growcap g m p re h st) = chains st ++ [prefix_of st g ++ [h]].
Proof.
  intros Hwf Hg Hu. unfold add_route.
  destruct (append growcap st nil_slice (prefix_of st g)) as [st1 s1] eqn:E1.
  destruct (append growcap st1 s1 [h]) as [st2 s2] eqn:E2.
  pose proof Hwf as (Hok & Hdis & Hid).
  destruct (append_inv _ _ _ _ _ E1 (ok_nil_slice st))
    as (Hv1 & Hgr1 & Htb1 & Hng1 & Hfr1 & Hok1 & Harr1 & _).
  destruct (append_inv _ _ _ _ _ E2 Hok1)
    as (Hv2 & Hgr2 & Htb2 & Hng2 & Hfr2 & Hok2 & Harr2 & Hframe2).
  set (new := {| e_method := m; e_path := p; e_regexp := re;
                 e_handlers := s2 |}).
  set (st' := {| arrays := arrays st2; fresh := fresh st2; groups := groups st2;
                 next_group := next_group st2; table := table st2 ++ [new] |}).
  assert (∀ a, arr s2 = Some a → (fresh st ≤ a)%nat) as Hs2.
  { intros a Ha. destruct Harr2 as [Hn|[Hn _]]; rewrite Hn in Ha.
    - destruct Harr1 as [Hn1|[Hn1 _]]; rewrite Hn1 in Ha; [done|].
      injection Ha as <-. lia.
    - injection Ha as <-. lia. }
  assert (∀ o t, owned st o = Some t →
            ok_slice st2 t ∧ view (arrays st2) t = view (arrays st) t ∧
            (∀ a, arr t = Some a → arr s2 ≠ Some a)) as Hothers.
  { intros o' t Ht.
    destruct (append_nil_apart _ _ _ _ t E1 (Hok o' t Ht)) as [Hap Hvt].
    destruct (Hframe2 t Hap) as [Hok' Hvt']. split_and!; [done|congruence|].
    intros a Ha Hsa. specialize (Hs2 a Hsa).
    pose proof (Hok o' t Ht) as Hokt. unfold ok_slice in Hokt.
    rewrite Ha in Hokt. lia. }
  assert (∀ o t, owned st' o = Some t →
            (o = InTable (length (table st)) ∧ t = s2) ∨
            (o ≠ InTable (length (table st)) ∧ owned st o = Some t)) as Hown.
  { intros [g'|i] t; simpl; rewrite ?Hgr2, ?Hgr1, ?Htb2, ?Htb1.
    - intros ?. by right.
    - destruct (decide (i < length (table st))%nat) as [Hlt|Hge].
      + rewrite lookup_app_l by done. intros ?. right.
        split; [|done]. intros [= ->]. lia.
      + rewrite lookup_app_r by lia.
        destruct (i - length (table st))%nat as [|k] eqn:Hk; simpl; [|done].
        intros [= <-]. left. split; [|done]. f_equal. lia. }
  assert (chains st' = chains st ++ [prefix_of st g ++ [h]]) as Hch.
  { unfold chains. simpl. rewrite Htb2, Htb1, map_app. simpl.
    rewrite Hv2, Hv1. simpl. f_equal.
    apply map_ext_in. intros e He%list_elem_of_In.
    apply list_elem_of_lookup in He as [i He].
    destruct (Hothers (InTable i) (e_handlers e)) as (_ & ? & _);
      [by simpl; rewrite He|done]. }
  split_and!; [split_and!|split_and!|done].
  - intros o' t [[-> ->]|[Hne Ht]]%Hown; [done|].
    by destruct (Hothers o' t Ht) as [? _].
  - intros o1 o2 t1 t2 a [[-> ->]|[Hne1 Ht1]]%Hown [[-> ->]|[Hne2 Ht2]]%Hown
      Ha1 Ha2; [done| | |by eapply Hdis].
    + destruct (Hothers o2 t2 Ht2) as (_ & _ & H). by destruct (H a).
    + destruct (Hothers o1 t1 Ht1) as (_ & _ & H). by destruct (H a).
  - intros g'. simpl. rewrite Hng2, Hng1, Hgr2, Hgr1. apply Hid.
  - intros g' [t Ht] _. unfold prefix_of, group_handlers. simpl.
    rewrite Hgr2, Hgr1. split; [done|]. rewrite Ht. simpl.
    by destruct (Hothers (InGroup g') t Ht) as (_ & ? & _).
  - intros g' Hg'. simpl. by rewrite Hgr2, Hgr1.
  - intros i ch Hi. fold st'. rewrite Hch. by apply lookup_app_l_Some.
Qed.
End RouterSteps.

Section RouterRuns.
Variable growcap : nat → nat → nat.

Lemma frame_of_refl o st : frame_of o st st.
Proof. split_and!; auto. Qed.

Lemma step_frame st o :
  wf st → wf (step growcap st o) ∧ frame_of o st (step growcap st o).
Proof.
  intros Hwf. unfold step.
  destruct (decide _) as [Hg|_]; [|split; [done|apply frame_of_refl]].
  destruct o; simpl in Hg.
  - by destruct (Group_frame growcap st g Hwf Hg) as (? & ? & _).
  - by apply Use_frame.
  - by destruct (add_route_frame growcap st g "GET" p None h (OpGET g p h)
                   Hwf Hg) as (? & ? & _).
  - by destruct (add_route_frame growcap st g "POST" p None h (OpPOST g p h)
                   Hwf Hg) as (? & ? & _).
  - by destruct (add_route_frame growcap st g "PUT" p None h (OpPUT g p h)
                   Hwf Hg) as (? & ? & _).
  - by destruct (add_route_frame growcap st g "DELETE" p None h
                   (OpDELETE g p h) Hwf Hg) as (? & ? & _).
  - by destruct (add_route_frame growcap st g "GET" "" (Some re) h
                   (OpRegexMatch g re h) Hwf Hg) as (? & ? & _).
Qed.

Lemma run_frame ops : ∀ st,
  wf st →
  wf (run growcap ops st) ∧
  (∀ g, is_Some (groups st !! g) →
        forallb (λ o, negb (uses g o)) ops = true →
        is_Some (groups (run growcap ops st) !! g) ∧
        prefix_of (run growcap ops st) g = prefix_of st g) ∧
  (∀ i ch, chains st !! i = Some ch →
           chains (run growcap ops st) !! i = Some ch).
Proof.
  induction ops as [|o ops IH]; intros st Hwf; simpl; [by auto|].
  destruct (step_frame st o Hwf) as (Hwf' & Hpre & Hsome & Hch).
  destruct (IH _ Hwf') as (Hwf'' & Hpre' & Hch').
  split_and!; [done| |by auto].
  intros g Hg [Ho Hops]%andb_prop. apply negb_true_iff in Ho.
  destruct (Hpre g Hg Ho) as [_ Hp].
  destruct (Hpre' g (Hsome g Hg) Hops) as [? Hp']. split; [done|congruence].
Qed.

Lemma wf_empty_store : wf empty_store.
Proof.
  unfold wf, empty_store. simpl. split_and!.
  - intros [g|i] s; simpl.
    + intros [<- <-]%lookup_singleton_Some. done.
    + done.
  - intros [g1|i1] [g2|i2] s1 s2 a; simpl; try done.
    intros [<- <-]%lookup_singleton_Some. done.
  - intros g [s [<- _]%lookup_singleton_Some]. lia.
Qed.
End RouterRuns.

(** C8: at any point of the registration, [Group()] on an existing group
    gives a new group whose prefix has the elements of the parent's;
    whatever is called afterwards, the prefix of a group changes only
    by a [Use] on that very group (so not by a [Use] on its child, its
    parent or a sibling, and not by a registration), and the chains
    registered so far stay as they are. *)
Theorem group_prefix_is_a_copy
    (growcap : nat → nat → nat) (before after : list op) (parent : nat) :
  is_Some (groups (run growcap before empty_store) !! parent) →
  groups (run growcap before empty_store)
    !! (Group growcap parent (run growcap before empty_store)).2 = None ∧
  prefix_of (Group growcap parent (run growcap before empty_store)).1
            (Group growcap parent (run growcap before empty_store)).2
  = prefix_of (run growcap before empty_store) parent ∧
  (∀ g, is_Some (groups (Group growcap parent
                           (run growcap before empty_store)).1 !! g) →
        forallb (λ o, negb (uses g o)) after = true →
        prefix_of (run growcap after
                     (Group growcap parent (run growcap before empty_store)).1) g
        = prefix_of (Group growcap parent (run growcap before empty_store)).1 g) ∧
  (∀ i ch,
     chains (Group growcap parent (run growcap before empty_store)).1 !! i
     = Some ch →
     chains (run growcap after
               (Group growcap parent (run growcap before empty_store)).1) !! i
     = Some ch).
Proof.
  intros Hp.
  destruct (run_frame growcap before empty_store (wf_empty_store)) as (Hwf & _).
  destruct (Group_frame growcap _ parent Hwf Hp) as (Hwf1 & _ & Hnew & Hcopy).
  destruct (run_frame growcap after _ Hwf1) as (_ & Hpre & Hch).
  split_and!; [done..| |done].
  intros g Hg Hops. by destruct (Hpre g Hg Hops).
Qed.

(** The third [Use] of [setup] leaves the parent with room for one more
    element, so a later [Use] on it writes into the array it has. *)
Example parent_has_spare_capacity :
  group_handlers (run double setup empty_store) 0
  = {| arr := Some 2%nat; slen := 3; scap := 4 |} ∧
  group_handlers (run double (setup ++ [OpUse 0 [HUser [SWrite "late"]]])
                    empty_store) 0
  = {| arr := Some 2%nat; slen := 4; scap := 4 |}.
Proof. split; vm_compute; reflexivity. Qed.

(** After [Group()] on the engine's group: a [Use] on the parent, which
    writes into the spare cell of the parent's array, leaves the child
    as it was, and a [Use] on the child leaves the parent as it was. *)
Example use_after_group :
  prefix_of (run double [OpUse 0 [HUser [SWrite "late"]]]
               (Group double 0 (run double setup empty_store)).1) 0
  = [HUser [SWrite "auth"]; HGzip; HCompression; HUser [SWrite "late"]] ∧
  prefix_of (run double [OpUse 0 [HUser [SWrite "late"]]]
               (Group double 0 (run double setup empty_store)).1) 1
  = [HUser [SWrite "auth"]; HGzip; HCompression] ∧
  prefix_of (run double [OpUse 1 [HUser [SWrite "admin"]]]
               (Group double 0 (run double setup empty_store)).1) 0
  = [HUser [SWrite "auth"]; HGzip; HCompression] ∧
  prefix_of (run double [OpUse 1 [HUser [SWrite "admin"]]]
               (Group double 0 (run double setup empty_store)).1) 1
  = [HUser [SWrite "auth"]; HGzip; HCompression; HUser [SWrite "admin"]].
Proof. split_and!; vm_compute; reflexivity. Qed.

(** What the dispatcher finds after this registration: the chain of a
    route is the prefix its group had when the route was added, then
    the handler. *)
Example routes_after_registration :
  resolve (freeze (run double later
                     (Group double 0 (run double setup empty_store)).1))
          "POST" "/x"
  = Some [HUser [SWrite "auth"]; HGzip; HCompression; HUser [SWrite "admin"];
          HUser [SWrite "x"]] ∧
  resolve (freeze (run double later
                     (Group double 0 (run double setup empty_store)).1))
          "GET" "/"
  = Some [HUser [SWrite "auth"]; HGzip; HCompression; HUser [SWrite "home"]].
Proof. split; vm_compute; reflexivity. Qed.

Lemma group_prefix_is_a_copy_witness :
  is_Some (groups (run double setup empty_store) !! 0%nat) ∧
  groups (run double setup empty_store)
    !! (Group double 0 (run double setup empty_store)).2 = None ∧
  prefix_of (Group double 0 (run double setup empty_store)).1
            (Group double 0 (run double setup empty_store)).2
  = prefix_of (run double setup empty_store) 0 ∧
  (∀ g, is_Some (groups (Group double 0 (run double setup empty_store)).1 !! g) →
        forallb (λ o, negb (uses g o)) later = true →
        prefix_of (run double later
                     (Group double 0 (run double setup empty_store)).1) g
        = prefix_of (Group double 0 (run double setup empty_store)).1 g) ∧
  (∀ i ch,
     chains (Group double 0 (run double setup empty_store)).1 !! i = Some ch →
     chains (run double later
               (Group double 0 (run double setup empty_store)).1) !! i
     = Some ch).
Proof.
  assert (is_Some (groups (run double setup empty_store) !! 0%nat)) as H.
  { eexists. vm_compute. reflexivity. }
  split; [exact H|].
  exact (group_prefix_is_a_copy double setup later 0 H).
Defined.

(** ** C9 *)











(** * Further properties *)

(** ** A finer rule: the gzip branch on its own *)

Section Rule2.
Variables (I E : Context → Prop) (F : Prop).
Variable next : Context → Outcome.
Hypothesis next_ok : ∀ c, I c → holds I E F (next c).
Hypothesis abort_ok : ∀ c, I c → I (Abort c).
Hypothesis write_ok : ∀ x c, I c → I (Write x c).
Hypothesis panic_ok : ∀ c, I c → E c.
Hypothesis gzip_ok :
  ∀ c, I c → Contains (AcceptEncoding (Request_ c)) "gzip" = true →
       holds I E F (defer (gzipWriter_Close (gz_next c)) (next (wrapGzip c).1)).

Lemma call_rule2 h c : I c → holds I E F (call next h c).
Proof.
  intros Hc. destruct h; simpl.
  - by apply run_body_rule.
  - unfold GzipMiddleware.
    destruct (Contains _ _) eqn:Hg; simpl; [by apply gzip_ok|auto].
  - unfold CompressionMiddleware.
    destruct (Contains _ _) eqn:Hg; simpl; [by apply gzip_ok|auto].
Qed.
End Rule2.

(** An invariant of the whole of [safelyHandle], relative to a context
    [c0] the run is compared with. *)
Section WholeRule.
Variable R : Context → Context → Prop.
Hypothesis incr_ok : ∀ c0 c, R c0 c → R c0 (incr_index c).
Hypothesis enter_ok :
  ∀ c0 c h, R c0 c → handler_at (handlers c) (index c) = Some h →
            R c0 (log (EvEnter (index c)) c).
Hypothesis abort_ok : ∀ c0 c, R c0 c → R c0 (Abort c).
Hypothesis write_ok : ∀ c0 x c, R c0 c → R c0 (Write x c).
Hypothesis gzip_ok :
  ∀ (next : Context → Outcome) c0 c,
    (∀ c1 x, R c1 x → holds (R c1) (R c1) True (next x)) →
    R c0 c → Contains (AcceptEncoding (Request_ c)) "gzip" = true →
    holds (R c0) (R c0) True
          (defer (gzipWriter_Close (gz_next c)) (next (wrapGzip c).1)).
Hypothesis pre_ok : ∀ c0 c, R c0 c → R c0 (log EvPre c).
Hypothesis post_ok : ∀ c0 c, R c0 c → R c0 (log (EvPost (Err c)) c).
Hypothesis err_ok : ∀ c0 e c, R c0 c → R c0 (set_Err (Some e) c).
Hypothesis notfound_ok :
  ∀ c0 c, R c0 c → handlers c = None → R c0 (WriteHeader 404 c).

Lemma Next_loop_whole fuel :
  ∀ c0 c, R c0 c → holds (R c0) (R c0) True (Next_loop fuel c).
Proof.
  induction fuel as [|fuel IH]; intros c0 c Hc; simpl; [done|].
  assert (∀ c1 x, R c1 x →
            holds (R c1) (R c1) True (Next_loop fuel (incr_index x))) as Hnext
      by auto.
  destruct (index c <? len (handlers c)); [|done].
  destruct (handler_at _ _) as [h|] eqn:Hh; [|done].
  apply holds_bind; [|by auto].
  apply call_rule2; auto.
  - intros x Hx Hg.
    by apply (gzip_ok (λ c', Next_loop fuel (incr_index c'))).
  - by eapply enter_ok.
Qed.

Lemma Next_whole fuel c0 c :
  R c0 c → holds (R c0) (R c0) True (Next fuel c).
Proof. intros Hc. apply Next_loop_whole. auto. Qed.

Lemma run_hook_whole fuel body c0 c :
  R c0 c → holds (R c0) (R c0) True (run_hook fuel body c).
Proof.
  intros Hc. apply run_body_rule; auto. intros x Hx. by apply Next_whole.
Qed.

Lemma safelyHandle_whole fuel engine c0 c :
  R c0 c → holds (R c0) (R c0) True (safelyHandle fuel engine c).
Proof.
  intros Hc. unfold safelyHandle.
  assert (holds (R c0) (R c0) True (handle_body fuel engine c)) as H1.
  { unfold handle_body. apply holds_bind; [apply run_hook_whole; auto|].
    intros c1 H1. destruct (handlers c1) eqn:Hh.
    - destruct (ParseForm _); simpl; [done|]. by apply Next_whole.
    - simpl. apply notfound_ok; [|done]. by apply err_ok. }
  assert (holds (R c0) (R c0) True
            (inner_scope fuel engine (handle_body fuel engine c))) as H2.
  { destruct (handle_body fuel engine c) as [c1|v c1|]; simpl in *; [| |done].
    - apply run_hook_whole. auto.
    - apply run_hook_whole.
      apply (post_ok c0 (set_Err (Some v) c1)). by apply err_ok. }
  destruct (inner_scope _ _ _) as [c2|v c2|]; simpl in *; auto.
Qed.
End WholeRule.

Lemma gzip_from_steps (I : Context → Prop) (next : Context → Outcome) c :
  (∀ x, I x → I (wrapGzip x).1) →
  (∀ gz x, I x → I (gzipWriter_Close gz x)) →
  (∀ x, I x → holds I I True (next x)) →
  I c →
  holds I I True (defer (gzipWriter_Close (gz_next c)) (next (wrapGzip c).1)).
Proof.
  intros Hw Hcl Hnext Hc. specialize (Hnext _ (Hw c Hc)).
  destruct (next _) as [x|v x|]; simpl in *; auto.
Qed.

(** ** The not-found path and the form-parsing path *)

Lemma no_chain_log e x :
  is_enter e = false → no_chain x → no_chain (log e x).
Proof.
  intros He [Hh Ht]. split; [done|]. simpl. rewrite entered_snoc, Ht.
  by destruct e.
Qed.

Lemma safelyHandle_no_chain fuel engine c :
  no_chain c → holds no_chain no_chain True (safelyHandle fuel engine c).
Proof.
  apply (safelyHandle_whole (λ _, no_chain)) with (c0 := c).
  - by intros _ x [? ?].
  - intros _ x h [Hh _] Hat. rewrite Hh in Hat. unfold handler_at in Hat.
    simpl in Hat. destruct (index x <? 0); [done|].
    by rewrite lookup_nil in Hat.
  - intros _ x Hx. apply (no_chain_log (EvAbort (index x))) in Hx; [|done].
    destruct Hx. by split.
  - intros _ b x Hx. by apply no_chain_log.
  - intros next _ x Hnext Hx _. apply gzip_from_steps; [..|done].
    + intros y Hy.
      apply (no_chain_log (EvSetHeader "Content-Encoding" "gzip")) in Hy;
        [|done].
      destruct Hy. by split.
    + intros gz y Hy. by apply no_chain_log.
    + intros y Hy. by apply (Hnext c).
  - intros _ x Hx. by apply no_chain_log.
  - intros _ x Hx. by apply no_chain_log.
  - by intros _ e x [? ?].
  - intros _ x Hx _. by apply no_chain_log.
Qed.

(** X1: a request that no route accepts: [safelyHandle] returns, no handler
    is entered at any point, and when the pre hook returns the core
    sets [c.Err] to [page not found], writes status 404 on the writer
    of the context and enters [Post_Process] right after, with that
    error in [c.Err]. *)
Theorem not_found_path (fuel : nat) (engine : Engine) (req : Request) :
  resolve (trees engine) (Method req) (Path req) = None →
  (0 < fuel)%nat →
  ∃ c', (ServeHTTP fuel engine req SemSend).2 = Returned c' ∧
        entered (trace c') = [] ∧
        ∀ c1, run_hook fuel (Pre_Process engine)
                (log EvPre (dispatch_context engine req)) = Returned c1 →
              ∃ t2, trace c' = trace c1 ++ EvWriteHeader (Writer c1) 404
                                 :: EvPost (Some "page not found") :: t2.
Proof.
  intros Hres Hfuel.
  assert (handlers (dispatch_context engine req) = None) as Hnil.
  { unfold dispatch_context. simpl. exact Hres. }
  assert (ready fuel (dispatch_context engine req)) as Hr.
  { apply ready_dispatch; rewrite Hnil; unfold len; simpl; [done|lia]. }
  destruct (safelyHandle_returns fuel engine _ Hr)
    as (c1' & c2 & c' & Hrec & _ & H2 & Hin & Hret).
  exists c'. rewrite (ServeHTTP_dispatched _ _ _ _ Hret). split; [done|].
  split.
  - pose proof (safelyHandle_no_chain fuel engine (dispatch_context engine req))
      as Hn.
    rewrite Hret in Hn. apply Hn. split; [done|]. done.
  - intros c1 Hpre.
    pose proof (run_hook_follows fuel (Pre_Process engine) _ _
                  (follows_refl (log EvPre (dispatch_context engine req))
                     (proj1 (proj2 Hr)))) as Hf.
    rewrite Hpre in Hf. destruct Hf as (Hh1 & _).
    assert (handlers c1 = None) as Hn1 by (rewrite Hh1; exact Hnil).
    unfold handle_body in Hrec. rewrite Hpre in Hrec. simpl in Hrec.
    rewrite Hn1 in Hrec. simpl in Hrec. injection Hrec as <-.
    destruct H2 as (_ & _ & _ & t2 & Ht2 & _). simpl in Ht2.
    destruct Hin as [[_ ->]|(v & _ & ->)].
    + exists t2. rewrite Ht2. by rewrite <- !app_assoc.
    + exists (t2 ++ [EvWrite (Writer c2) v]). simpl. rewrite Ht2.
      by rewrite <- !app_assoc.
Qed.

Lemma not_found_path_witness :
  resolve (trees (Default [SWrite "hi"] [])) (Method get_slash) (Path get_slash)
  = None ∧
  (0 < 1)%nat ∧
  ∃ c', (ServeHTTP 1 (Default [SWrite "hi"] []) get_slash SemSend).2
        = Returned c' ∧
        entered (trace c') = [] ∧
        ∀ c1, run_hook 1 (Pre_Process (Default [SWrite "hi"] []))
                (log EvPre (dispatch_context (Default [SWrite "hi"] []) get_slash))
              = Returned c1 →
              ∃ t2, trace c' = trace c1 ++ EvWriteHeader (Writer c1) 404
                                 :: EvPost (Some "page not found") :: t2.
Proof.
  assert (resolve (trees (Default [SWrite "hi"] [])) (Method get_slash)
            (Path get_slash) = None) as H1 by reflexivity.
  assert (0 < 1)%nat as H2 by lia.
  split; [exact H1|]. split; [exact H2|].
  exact (not_found_path 1 (Default [SWrite "hi"] []) get_slash H1 H2).
Defined.

(** X2: a request whose form does not parse: with a chain below the
    sentinel [safelyHandle] returns, and when the pre hook returns the
    core does not start the chain: [Post_Process] is entered right after
    the pre hook, with the parse error in [c.Err], and no 404 is
    written. *)
Theorem form_error_path (fuel : nat) (engine : Engine) (req : Request)
    (err : string) :
  ParseForm req = Some err →
  resolve (trees engine) (Method req) (Path req) ≠ None →
  len (handlers (dispatch_context engine req)) < sentinel →
  len (handlers (dispatch_context engine req)) < Z.of_nat fuel →
  ∃ c', (ServeHTTP fuel engine req SemSend).2 = Returned c' ∧
        ∀ c1, run_hook fuel (Pre_Process engine)
                (log EvPre (dispatch_context engine req)) = Returned c1 →
              ∃ t2, trace c' = trace c1 ++ EvPost (Some err) :: t2.
Proof.
  intros Hpf Hres Hlen Hfuel.
  pose proof (ready_dispatch fuel engine req Hlen Hfuel) as Hr.
  destruct (safelyHandle_returns fuel engine _ Hr)
    as (c1' & c2 & c' & Hrec & _ & H2 & Hin & Hret).
  exists c'. rewrite (ServeHTTP_dispatched _ _ _ _ Hret). split; [done|].
  intros c1 Hpre.
  pose proof (run_hook_follows fuel (Pre_Process engine) _ _
                (follows_refl (log EvPre (dispatch_context engine req))
                   (proj1 (proj2 Hr)))) as Hf.
  rewrite Hpre in Hf. destruct Hf as (Hh1 & Hr1 & _).
  assert (∃ l, handlers c1 = Some l) as [l Hl].
  { rewrite Hh1. simpl.
    destruct (resolve (trees engine) (Method req) (Path req)); [eauto|done]. }
  assert (ParseForm (Request_ c1) = Some err) as Hp1 by (by rewrite Hr1).
  unfold handle_body in Hrec. rewrite Hpre in Hrec. simpl in Hrec.
  rewrite Hl, Hp1 in Hrec. simpl in Hrec. injection Hrec as <-.
  destruct H2 as (_ & _ & _ & t2 & Ht2 & _). simpl in Ht2.
  destruct Hin as [[_ ->]|(v & _ & ->)].
  + exists t2. rewrite Ht2. by rewrite <- !app_assoc.
  + exists (t2 ++ [EvWrite (Writer c2) v]). simpl. rewrite Ht2.
    by rewrite <- !app_assoc.
Qed.

Lemma form_error_path_witness :
  ParseForm bad_form = Some "invalid URL escape" ∧
  resolve (trees gzip_engine) (Method bad_form) (Path bad_form) ≠ None ∧
  len (handlers (dispatch_context gzip_engine bad_form)) < sentinel ∧
  len (handlers (dispatch_context gzip_engine bad_form)) < Z.of_nat 3 ∧
  ∃ c', (ServeHTTP 3 gzip_engine bad_form SemSend).2 = Returned c' ∧
        ∀ c1, run_hook 3 (Pre_Process gzip_engine)
                (log EvPre (dispatch_context gzip_engine bad_form))
              = Returned c1 →
              ∃ t2, trace c' = trace c1 ++ EvPost (Some "invalid URL escape")
                                 :: t2.
Proof.
  assert (ParseForm bad_form = Some "invalid URL escape") as H1 by reflexivity.
  assert (resolve (trees gzip_engine) (Method bad_form) (Path bad_form) ≠ None)
    as H2 by (vm_compute; discriminate).
  assert (len (handlers (dispatch_context gzip_engine bad_form)) < sentinel)
    as H3 by (vm_compute; reflexivity).
  assert (len (handlers (dispatch_context gzip_engine bad_form)) < Z.of_nat 3)
    as H4 by (vm_compute; reflexivity).
  split_and!; try done.
  exact (form_error_path 3 gzip_engine bad_form _ H1 H2 H3 H4).
Defined.

(** ** Compression: who gets it, and that it is always released *)

Lemma uncompressed_log c0 e x :
  transport_only e = true → uncompressed c0 x → uncompressed c0 (log e x).
Proof.
  intros He (Hc & Hr & Hw & Hg & Ht). unfold uncompressed. simpl.
  rewrite forallb_app, Ht. simpl. by rewrite He.
Qed.

(** X3: a client that does not advertise gzip gets no compression, whatever
    middleware the chain holds: with a chain below the sentinel the
    request returns, the writer of the context is the transport's at
    the end, no gzip writer was created, no [Content-Encoding] header
    was set and every write went to the transport's writer. *)
Theorem no_gzip_unless_advertised (fuel : nat) (engine : Engine) (req : Request) :
  Contains (AcceptEncoding req) "gzip" = false →
  len (handlers (dispatch_context engine req)) < sentinel →
  len (handlers (dispatch_context engine req)) < Z.of_nat fuel →
  ∃ c', (ServeHTTP fuel engine req SemSend).2 = Returned c' ∧
        Writer c' = Transport ∧ gz_next c' = 0%nat ∧
        forallb transport_only (trace c') = true.
Proof.
  intros Hae Hlen Hfuel.
  pose proof (ready_dispatch fuel engine req Hlen Hfuel) as Hr.
  destruct (safelyHandle_returns fuel engine _ Hr)
    as (c1 & c2 & c' & _ & _ & _ & _ & Hret).
  exists c'. rewrite (ServeHTTP_dispatched _ _ _ _ Hret). split; [done|].
  assert (holds (uncompressed (dispatch_context engine req))
                (uncompressed (dispatch_context engine req)) True
                (safelyHandle fuel engine (dispatch_context engine req))) as H.
  { apply (safelyHandle_whole uncompressed).
    - by intros c0 x (? & ? & ? & ? & ?).
    - intros c0 x h Hx _. by apply uncompressed_log.
    - intros c0 x Hx.
      apply (uncompressed_log _ (EvAbort (index x))) in Hx; [|done].
      destruct Hx as (? & ? & ? & ? & ?). by split_and!.
    - intros c0 b x Hx. apply uncompressed_log; [|done].
      destruct Hx as (_ & _ & Hw & _). simpl. by rewrite Hw.
    - intros next c0 x _ (Hc & Hrq & _) Hg. rewrite Hrq in Hg. congruence.
    - intros c0 x Hx. by apply uncompressed_log.
    - intros c0 x Hx. by apply uncompressed_log.
    - by intros c0 e x (? & ? & ? & ? & ?).
    - intros c0 x Hx _. apply uncompressed_log; [|done].
      destruct Hx as (_ & _ & Hw & _). simpl. by rewrite Hw.
    - by split_and!. }
  rewrite Hret in H. by destruct H as (_ & _ & ? & ? & ?).
Qed.

Lemma no_gzip_unless_advertised_witness :
  Contains (AcceptEncoding plain_client) "gzip" = false ∧
  len (handlers (dispatch_context gzip_engine plain_client)) < sentinel ∧
  len (handlers (dispatch_context gzip_engine plain_client)) < Z.of_nat 3 ∧
  ∃ c', (ServeHTTP 3 gzip_engine plain_client SemSend).2 = Returned c' ∧
        Writer c' = Transport ∧ gz_next c' = 0%nat ∧
        forallb transport_only (trace c') = true.
Proof.
  assert (Contains (AcceptEncoding plain_client) "gzip" = false) as H1
      by reflexivity.
  assert (len (handlers (dispatch_context gzip_engine plain_client)) < sentinel)
    as H2 by (vm_compute; reflexivity).
  assert (len (handlers (dispatch_context gzip_engine plain_client))
          < Z.of_nat 3) as H3 by (vm_compute; reflexivity).
  split_and!; try done.
  exact (no_gzip_unless_advertised 3 gzip_engine plain_client H1 H2 H3).
Defined.

Lemma all_closed_refl c : all_closed c c.
Proof.
  split; [done|]. exists []. rewrite app_nil_r. split; [done|]. intros gz. lia.
Qed.

Lemma all_closed_log c0 e x : all_closed c0 x → all_closed c0 (log e x).
Proof.
  intros (Hle & t & Ht & Hcl). split; [done|]. exists (t ++ [e]). simpl.
  rewrite Ht, app_assoc. split; [done|].
  intros gz Hgz. apply elem_of_app. left. by apply Hcl.
Qed.

Lemma all_closed_gzip (next : Context → Outcome) c0 c :
  (∀ c1 x, all_closed c1 x → holds (all_closed c1) (all_closed c1) True (next x)) →
  all_closed c0 c →
  holds (all_closed c0) (all_closed c0) True
        (defer (gzipWriter_Close (gz_next c)) (next (wrapGzip c).1)).
Proof.
  intros Hnext (Hle & t & Ht & Hcl).
  specialize (Hnext (wrapGzip c).1 (wrapGzip c).1 (all_closed_refl _)).
  assert (∀ x, all_closed (wrapGzip c).1 x →
               all_closed c0 (gzipWriter_Close (gz_next c) x)) as Hend.
  { intros x (Hle1 & t1 & Ht1 & Hcl1). simpl in Hle1, Ht1, Hcl1.
    split; [simpl; lia|].
    exists (t ++ [EvSetHeader "Content-Encoding" "gzip"] ++ t1
              ++ [EvGzClose (gz_next c)]).
    simpl. rewrite Ht1, Ht, <- !app_assoc. split; [done|].
    intros gz Hgz.
    destruct (decide (gz < gz_next c)%nat) as [Hlt|Hge].
    - apply elem_of_app. left. apply Hcl. lia.
    - apply elem_of_app. right. apply list_elem_of_further.
      apply elem_of_app.
      destruct (decide (gz = gz_next c)) as [->|Hne].
      + right. apply list_elem_of_here.
      + left. apply Hcl1. lia. }
  destruct (next _) as [x|v x|]; simpl in *; auto.
Qed.

(** X4: every gzip writer created for a request has been closed when
    [safelyHandle] returns, whether the chain returned or a handler
    panicked under any number of compression middlewares. *)
Theorem every_gzip_writer_closed (fuel : nat) (engine : Engine) (req : Request) :
  len (handlers (dispatch_context engine req)) < sentinel →
  len (handlers (dispatch_context engine req)) < Z.of_nat fuel →
  ∃ c', (ServeHTTP fuel engine req SemSend).2 = Returned c' ∧
        ∀ gz, (gz < gz_next c')%nat → EvGzClose gz ∈ trace c'.
Proof.
  intros Hlen Hfuel.
  pose proof (ready_dispatch fuel engine req Hlen Hfuel) as Hr.
  destruct (safelyHandle_returns fuel engine _ Hr)
    as (c1 & c2 & c' & _ & _ & _ & _ & Hret).
  exists c'. rewrite (ServeHTTP_dispatched _ _ _ _ Hret). split; [done|].
  assert (holds (all_closed (dispatch_context engine req))
                (all_closed (dispatch_context engine req)) True
                (safelyHandle fuel engine (dispatch_context engine req))) as H.
  { apply (safelyHandle_whole all_closed).
    - by intros c0 x (? & ?).
    - intros c0 x h Hx _. by apply all_closed_log.
    - intros c0 x Hx. by apply (all_closed_log _ (EvAbort (index x))) in Hx.
    - intros c0 b x Hx. by apply all_closed_log.
    - intros next c0 x Hnext Hx _. by apply all_closed_gzip.
    - intros c0 x Hx. by apply all_closed_log.
    - intros c0 x Hx. by apply all_closed_log.
    - by intros c0 e x (? & ?).
    - intros c0 x Hx _. by apply all_closed_log.
    - apply all_closed_refl. }
  rewrite Hret in H. destruct H as (_ & t & Ht & Hcl). simpl in Ht.
  intros gz Hgz. rewrite Ht. apply Hcl. simpl. lia.
Qed.

Lemma every_gzip_writer_closed_witness :
  len (handlers (dispatch_context double_gzip_engine get_slash)) < sentinel ∧
  len (handlers (dispatch_context double_gzip_engine get_slash)) < Z.of_nat 4 ∧
  ∃ c', (ServeHTTP 4 double_gzip_engine get_slash SemSend).2 = Returned c' ∧
        ∀ gz, (gz < gz_next c')%nat → EvGzClose gz ∈ trace c'.
Proof.
  assert (len (handlers (dispatch_context double_gzip_engine get_slash))
          < sentinel) as H1 by (vm_compute; reflexivity).
  assert (len (handlers (dispatch_context double_gzip_engine get_slash))
          < Z.of_nat 4) as H2 by (vm_compute; reflexivity).
  split_and!; try done.
  exact (every_gzip_writer_closed 4 double_gzip_engine get_slash H1 H2).
Defined.

(** ** Registration: what a call adds, and what the dispatcher finds *)

Lemma resolve_app ts v m p :
  resolve (ts ++ [v]) m p
  = if existsb (hit m p) ts then resolve ts m p else resolve [v] m p.
Proof.
  induction ts as [|u ts IH]; [done|]. simpl. unfold hit at 1.
  destruct (node_accepts (root u) p); simpl; [|done].
  by destruct (String.eqb (method u) m).
Qed.

Lemma resolve_Some_hit ts m p l :
  resolve ts m p = Some l → existsb (hit m p) ts = true.
Proof.
  induction ts as [|u ts IH]; [done|]. simpl. unfold hit at 1.
  destruct (node_accepts (root u) p); simpl; [|done].
  by destruct (String.eqb (method u) m).
Qed.

Lemma resolve_None_no_hit ts m p :
  Forall (λ v, is_Some (node_handlers (root v))) ts →
  resolve ts m p = None → existsb (hit m p) ts = false.
Proof.
  induction 1 as [|u ts [l Hl] _ IH]; [done|]. simpl. unfold hit at 1.
  destruct (node_accepts (root u) p); simpl; [|done].
  destruct (String.eqb (method u) m); [|done]. by rewrite Hl.
Qed.

Section Registration.
Variable growcap : nat → nat → nat.

Lemma append_table st s xs : table (append growcap st s xs).1 = table st.
Proof.
  unfold append. destruct (decide _); [|done]. by destruct (arr s).
Qed.

Lemma append_arr st s xs :
  ok_slice st s → xs ≠ [] → is_Some (arr (append growcap st s xs).2).
Proof.
  intros Hs Hxs. unfold append. destruct (decide _) as [Hfit|]; [|by eexists].
  unfold ok_slice in Hs. destruct (arr s) as [a|] eqn:Ha; [by eexists|].
  destruct Hs as [Hl Hc]. destruct xs; [done|]. simpl in Hfit. lia.
Qed.

Lemma freeze_frame st st' :
  table st' = table st →
  (∀ i ch, chains st !! i = Some ch → chains st' !! i = Some ch) →
  freeze st' = freeze st.
Proof.
  intros Htb Hch. unfold freeze. rewrite Htb.
  apply map_ext_in. intros e He%list_elem_of_In.
  apply list_elem_of_lookup in He as [i He].
  assert (chains st' !! i = Some (view (arrays st) (e_handlers e))) as H.
  { apply Hch. apply chains_lookup. eauto. }
  apply chains_lookup in H as (e' & He' & Hv). rewrite Htb, He in He'.
  injection He' as <-. by rewrite Hv.
Qed.

Lemma Use_prefix st g mws :
  wf st → is_Some (groups st !! g) →
  prefix_of (Use growcap g mws st) g = prefix_of st g ++ mws.
Proof.
  intros (Hok & _) [sg Hg]. unfold Use, prefix_of, group_handlers.
  rewrite Hg. simpl.
  destruct (append growcap st sg mws) as [st1 s1] eqn:E.
  destruct (append_inv _ _ _ _ _ _ E (Hok (InGroup g) sg Hg)) as (Hv & _).
  simpl. by rewrite lookup_insert_eq.
Qed.

Lemma Use_freeze st g mws :
  wf st → is_Some (groups st !! g) →
  freeze (Use growcap g mws st) = freeze st.
Proof.
  intros Hwf Hg.
  destruct (Use_frame growcap st g mws Hwf Hg) as (_ & _ & _ & Hch).
  apply freeze_frame; [|done]. unfold Use.
  pose proof (append_table st (group_handlers st g) mws) as Ht.
  by destruct (append growcap st (group_handlers st g) mws).
Qed.

Lemma Group_freeze st g :
  wf st → is_Some (groups st !! g) →
  freeze (Group growcap g st).1 = freeze st.
Proof.
  intros Hwf Hg.
  destruct (Group_frame growcap st g Hwf Hg) as (_ & (_ & _ & Hch) & _).
  apply freeze_frame; [|done]. unfold Group.
  pose proof (append_table st nil_slice (prefix_of st g)) as Ht.
  by destruct (append growcap st nil_slice (prefix_of st g)).
Qed.

Lemma add_route_freeze st g m p re h :
  wf st → is_Some (groups st !! g) →
  freeze (add_route growcap g m p re h st)
  = freeze st ++ [{| method := m;
                     root := {| path := p; regexp := re;
                                node_handlers := Some (prefix_of st g ++ [h]) |} |}].
Proof.
  intros Hwf Hg.
  destruct (add_route_frame growcap st g m p re h (OpGroup g) Hwf Hg)
    as (_ & _ & Hch); [done|].
  revert Hch. unfold add_route.
  destruct (append growcap st nil_slice (prefix_of st g)) as [st1 s1] eqn:E1.
  destruct (append_inv _ _ _ _ _ _ E1 (ok_nil_slice st))
    as (_ & _ & Htb1 & _ & _ & Hok1 & _).
  pose proof (append_arr st1 s1 [h] Hok1) as Harr.
  pose proof (append_table st1 s1 [h]) as Htb2.
  destruct (append growcap st1 s1 [h]) as [st2 s2] eqn:E2.
  simpl in Harr, Htb2. destruct Harr as [a Ha]; [done|].
  unfold chains, freeze. simpl. rewrite Htb2, Htb1, !map_app. simpl.
  intros [Hold Hnew]%app_inj_1; [|by rewrite !length_map].
  injection Hnew as Hnew. rewrite Ha, Hnew. f_equal.
  apply map_ext_in. intros e He.
  pose proof (proj1 map_ext_in_iff Hold e He) as Hv. simpl in Hv.
  by rewrite Hv.
Qed.

Lemma step_freeze st o :
  wf st → is_Some (groups st !! receiver o) →
  freeze (step growcap st o)
  = freeze st ++ from_option (λ v, [v]) [] (tree_of o (prefix_of st (receiver o))).
Proof.
  intros Hwf Hg. unfold step. destruct (decide _) as [_|]; [|done].
  destruct o; simpl in *; rewrite ?app_nil_r.
  - by apply Group_freeze.
  - by apply Use_freeze.
  - by apply add_route_freeze.
  - by apply add_route_freeze.
  - by apply add_route_freeze.
  - by apply add_route_freeze.
  - by apply add_route_freeze.
Qed.

Lemma run_wf ops st : wf st → wf (run growcap ops st).
Proof. intros H. by destruct (run_frame growcap ops st H). Qed.

Lemma step_routes st o :
  wf st →
  Forall (λ v, is_Some (node_handlers (root v))) (freeze st) →
  Forall (λ v, is_Some (node_handlers (root v))) (freeze (step growcap st o)).
Proof.
  intros Hwf H.
  destruct (decide (is_Some (groups st !! receiver o))) as [Hg|Hg].
  - rewrite step_freeze by done. apply Forall_app. split; [done|].
    destruct o; simpl; repeat constructor; by eexists.
  - unfold step. by destruct (decide _).
Qed.

Lemma run_routes ops : ∀ st,
  wf st →
  Forall (λ v, is_Some (node_handlers (root v))) (freeze st) →
  Forall (λ v, is_Some (node_handlers (root v))) (freeze (run growcap ops st)).
Proof.
  induction ops as [|o ops IH]; intros st Hwf H; [done|]. simpl.
  apply IH; [by apply step_frame|by apply step_routes].
Qed.
End Registration.

(** X6: [Use] on an existing group, at any point of a registration and for
    any growth policy of [append]: the middleware is added at the end of
    the prefix of the group, in the order given, whether [append] wrote
    into the array the group had or into a new one. *)
Theorem Use_adds_at_the_end
    (growcap : nat → nat → nat) (ops : list op) (g : nat)
    (middleware : list HandlerFunc) :
  is_Some (groups (run growcap ops empty_store) !! g) →
  prefix_of (Use growcap g middleware (run growcap ops empty_store)) g
  = prefix_of (run growcap ops empty_store) g ++ middleware.
Proof.
  intros Hg. apply Use_prefix; [|done]. apply run_wf, wf_empty_store.
Qed.

Lemma Use_adds_at_the_end_witness :
  is_Some (groups (run double setup empty_store) !! 0%nat) ∧
  prefix_of (Use double 0 [HUser [SWrite "late"]; HGzip]
               (run double setup empty_store)) 0
  = prefix_of (run double setup empty_store) 0
    ++ [HUser [SWrite "late"]; HGzip].
Proof.
  assert (is_Some (groups (run double setup empty_store) !! 0%nat)) as H.
  { eexists. vm_compute. reflexivity. }
  split; [exact H|].
  exact (Use_adds_at_the_end double setup 0 [HUser [SWrite "late"]; HGzip] H).
Defined.

(** X7: a call of the registration surface on an existing group, at any
    point of a registration: [GET], [POST], [PUT], [DELETE] and
    [RegexMatch] add one entry at the end of [engine.trees] and leave
    the entries before it as they are; the entry has the method of the
    call ([GET] for [RegexMatch]), the path or the pattern given, and as
    its chain the prefix the group has at that moment, then the handler.
    [Group] and [Use] add nothing. *)
Theorem registration_adds_one_entry
    (growcap : nat → nat → nat) (ops : list op) (o : op) :
  is_Some (groups (run growcap ops empty_store) !! receiver o) →
  freeze (run growcap (ops ++ [o]) empty_store)
  = freeze (run growcap ops empty_store)
    ++ from_option (λ v, [v]) []
         (tree_of o (prefix_of (run growcap ops empty_store) (receiver o))).
Proof.
  intros Hg. unfold run. rewrite foldl_app. simpl.
  apply step_freeze; [|done]. apply run_wf, wf_empty_store.
Qed.

Lemma registration_adds_one_entry_witness :
  is_Some (groups (run double setup empty_store)
             !! receiver (OpRegexMatch 0 static_only (HUser [SWrite "file"]))) ∧
  freeze (run double (setup ++ [OpRegexMatch 0 static_only (HUser [SWrite "file"])])
            empty_store)
  = freeze (run double setup empty_store)
    ++ from_option (λ v, [v]) []
         (tree_of (OpRegexMatch 0 static_only (HUser [SWrite "file"]))
            (prefix_of (run double setup empty_store)
               (receiver (OpRegexMatch 0 static_only (HUser [SWrite "file"]))))).
Proof.
  assert (is_Some (groups (run double setup empty_store)
             !! receiver (OpRegexMatch 0 static_only (HUser [SWrite "file"]))))
    as H.
  { eexists. vm_compute. reflexivity. }
  split; [exact H|].
  exact (registration_adds_one_entry double setup
           (OpRegexMatch 0 static_only (HUser [SWrite "file"])) H).
Defined.

(** X8: the earlier registration wins: whatever is called later on the
    registration surface, a request that resolved to a chain still
    resolves to that chain. *)
Theorem earlier_registration_wins
    (growcap : nat → nat → nat) (ops later : list op) (m p : string)
    (l : list HandlerFunc) :
  resolve (freeze (run growcap ops empty_store)) m p = Some l →
  resolve (freeze (run growcap (ops ++ later) empty_store)) m p = Some l.
Proof.
  unfold run. rewrite foldl_app.
  fold (run growcap ops empty_store).
  pose proof (run_wf growcap ops empty_store wf_empty_store) as Hwf.
  revert Hwf. generalize (run growcap ops empty_store).
  induction later as [|o later IH]; intros st Hwf Hres; [done|]. simpl.
  apply IH; [by apply step_frame|].
  destruct (decide (is_Some (groups st !! receiver o))) as [Hg|Hg].
  - rewrite step_freeze by done.
    destruct (tree_of o _) as [v|]; simpl; [|by rewrite app_nil_r].
    rewrite resolve_app. by rewrite (resolve_Some_hit _ _ _ _ Hres).
  - unfold step. by destruct (decide _).
Qed.

Lemma earlier_registration_wins_witness :
  resolve (freeze (run double setup empty_store)) "GET" "/"
  = Some [HUser [SWrite "auth"]; HGzip; HCompression; HUser [SWrite "home"]] ∧
  resolve (freeze (run double (setup ++ shadowed) empty_store)) "GET" "/"
  = Some [HUser [SWrite "auth"]; HGzip; HCompression; HUser [SWrite "home"]].
Proof.
  assert (resolve (freeze (run double setup empty_store)) "GET" "/"
          = Some [HUser [SWrite "auth"]; HGzip; HCompression;
                  HUser [SWrite "home"]]) as H by (vm_compute; reflexivity).
  split; [exact H|].
  exact (earlier_registration_wins double setup shadowed "GET" "/" _ H).
Defined.

(** X9: a request that nothing registered so far takes resolves, after
    [GET] for its path on an existing group, to the prefix of that
    group followed by the handler. *)
Theorem new_route_is_found
    (growcap : nat → nat → nat) (ops : list op) (g : nat) (p : string)
    (h : HandlerFunc) :
  is_Some (groups (run growcap ops empty_store) !! g) →
  resolve (freeze (run growcap ops empty_store)) "GET" p = None →
  resolve (freeze (run growcap (ops ++ [OpGET g p h]) empty_store)) "GET" p
  = Some (prefix_of (run growcap ops empty_store) g ++ [h]).
Proof.
  intros Hg Hres. unfold run. rewrite foldl_app. simpl.
  fold (run growcap ops empty_store).
  pose proof (run_wf growcap ops empty_store wf_empty_store) as Hwf.
  rewrite step_freeze by done. simpl. rewrite resolve_app.
  rewrite resolve_None_no_hit; [| |done].
  - simpl. unfold node_accepts. simpl. by rewrite !String.eqb_refl.
  - apply run_routes; [apply wf_empty_store|constructor].
Qed.

Lemma new_route_is_found_witness :
  is_Some (groups (run double setup empty_store) !! 0%nat) ∧
  resolve (freeze (run double setup empty_store)) "GET" "/new" = None ∧
  resolve (freeze (run double (setup ++ [OpGET 0 "/new" (HUser [SWrite "n"])])
                     empty_store)) "GET" "/new"
  = Some (prefix_of (run double setup empty_store) 0 ++ [HUser [SWrite "n"]]).
Proof.
  assert (is_Some (groups (run double setup empty_store) !! 0%nat)) as H1.
  { eexists. vm_compute. reflexivity. }
  assert (resolve (freeze (run double setup empty_store)) "GET" "/new" = None)
    as H2 by (vm_compute; reflexivity).
  split; [exact H1|]. split; [exact H2|].
  exact (new_route_is_found double setup 0 "/new" (HUser [SWrite "n"]) H1 H2).
Defined.

(** X10: a child group, its own middleware, then a route: the chain of the
    route is the prefix the parent had when [Group()] was called, then
    the middleware of the child, then the handler; and the entries
    registered before are as they were. *)
Theorem child_route_chain
    (growcap : nat → nat → nat) (ops : list op) (parent : nat)
    (middleware : list HandlerFunc) (p : string) (h : HandlerFunc) :
  is_Some (groups (run growcap ops empty_store) !! parent) →
  freeze (GET growcap (Group growcap parent (run growcap ops empty_store)).2 p h
            (Use growcap (Group growcap parent (run growcap ops empty_store)).2
               middleware
               (Group growcap parent (run growcap ops empty_store)).1))
  = freeze (run growcap ops empty_store)
    ++ [route "GET" p
          (prefix_of (run growcap ops empty_store) parent ++ middleware ++ [h])].
Proof.
  intros Hg.
  pose proof (run_wf growcap ops empty_store wf_empty_store) as Hwf.
  set (st := run growcap ops empty_store) in *.
  destruct (Group_frame growcap st parent Hwf Hg) as (Hwf1 & _ & _ & Hpre).
  pose proof (Group_freeze growcap st parent Hwf Hg) as Hfr1.
  set (child := (Group growcap parent st).2) in *.
  set (st1 := (Group growcap parent st).1) in *.
  assert (is_Some (groups st1 !! child)) as Hc.
  { unfold st1, child, Group.
    destruct (append growcap st nil_slice (prefix_of st parent)) as [s0 sl].
    simpl. rewrite lookup_insert_eq. by eexists. }
  destruct (Use_frame growcap st1 child middleware Hwf1 Hc)
    as (Hwf2 & _ & Hsome & _).
  unfold GET. rewrite add_route_freeze; [|done|by apply Hsome].
  rewrite Use_freeze, Hfr1 by done.
  rewrite Use_prefix, Hpre by done. unfold route. by rewrite <- app_assoc.
Qed.

Lemma child_route_chain_witness :
  is_Some (groups (run double setup empty_store) !! 0%nat) ∧
  freeze (GET double (Group double 0 (run double setup empty_store)).2 "/admin"
            (HUser [SWrite "x"])
            (Use double (Group double 0 (run double setup empty_store)).2
               [HUser [SWrite "admin"]]
               (Group double 0 (run double setup empty_store)).1))
  = freeze (run double setup empty_store)
    ++ [route "GET" "/admin"
          (prefix_of (run double setup empty_store) 0
           ++ [HUser [SWrite "admin"]] ++ [HUser [SWrite "x"]])].
Proof.
  assert (is_Some (groups (run double setup empty_store) !! 0%nat)) as H.
  { eexists. vm_compute. reflexivity. }
  split; [exact H|].
  exact (child_route_chain double setup 0 [HUser [SWrite "admin"]] "/admin"
           (HUser [SWrite "x"]) H).
Defined.

(** ** The two compression middlewares *)

Lemma defer_defer f g o :
  (∀ c, f (g c) = g (f c)) → defer f (defer g o) = defer g (defer f o).
Proof. intros H. destruct o; simpl; by rewrite ?H. Qed.

Lemma bind_defer f o k k' :
  (∀ c, k' (f c) = defer f (k c)) →
  bind (defer f o) k' = defer f (bind o k).
Proof. intros H. destruct o; simpl; by rewrite ?H. Qed.

Section OnCompression.
Variables next next' : Context → Outcome.
Hypothesis next_ok : ∀ c, next' (on_compression c) = defer on_compression (next c).

Lemma run_body_on_compression b : ∀ c,
  run_body next' b (on_compression c) = defer on_compression (run_body next b c).
Proof.
  induction b as [|[| |v|x] b IH]; intros c; simpl; try done.
  - rewrite next_ok. by apply bind_defer.
  - apply (IH (Abort c)).
  - apply (IH (Write x c)).
Qed.

Lemma gzip_on_compression c :
  CompressionMiddleware next' (on_compression c)
  = defer on_compression (GzipMiddleware next c) ∧
  CompressionMiddleware next' (on_compression c)
  = defer on_compression (CompressionMiddleware next c).
Proof.
  unfold CompressionMiddleware, GzipMiddleware. simpl.
  destruct (Contains _ _); simpl; [|by rewrite next_ok].
  change (set_Writer _ (alloc_gz (log _ (on_compression c))))
    with (on_compression (wrapGzip c).1).
  rewrite next_ok. split; by apply defer_defer.
Qed.

Lemma call_on_compression h c :
  call next' (as_compression h) (on_compression c)
  = defer on_compression (call next h c).
Proof.
  destruct h; simpl.
  - apply run_body_on_compression.
  - apply gzip_on_compression.
  - apply gzip_on_compression.
Qed.
End OnCompression.

Lemma Next_loop_on_compression fuel : ∀ c,
  Next_loop fuel (on_compression c) = defer on_compression (Next_loop fuel c).
Proof.
  induction fuel as [|fuel IH]; intros c; [done|]. simpl.
  assert (len (map as_compression <$> handlers c) = len (handlers c)) as ->.
  { unfold len. destruct (handlers c); simpl; [|done]. by rewrite length_map. }
  destruct (index c <? len (handlers c)); [|done].
  assert (handler_at (map as_compression <$> handlers c) (index c)
          = as_compression <$> handler_at (handlers c) (index c)) as ->.
  { unfold handler_at. destruct (index c <? 0); [done|].
    destruct (handlers c); simpl; [|by rewrite !lookup_nil].
    apply list_lookup_fmap. }
  destruct (handler_at (handlers c) (index c)) as [h|]; simpl; [|done].
  change (log (EvEnter (index c)) (on_compression c))
    with (on_compression (log (EvEnter (index c)) c)).
  rewrite (call_on_compression (λ c', Next_loop fuel (incr_index c'))
             (λ c', Next_loop fuel (incr_index c'))).
  - apply bind_defer. intros x. apply (IH (incr_index x)).
  - intros x. apply (IH (incr_index x)).
Qed.

(** X5: [GzipMiddleware] and [CompressionMiddleware] are the same handler:
    called on the same context with the same rest of the chain they end
    the same way; and a chain in which [CompressionMiddleware] stands
    for every [GzipMiddleware] runs as the chain itself does: same
    returns and panics, same trace, same writer, cursor and error. *)
Theorem compression_middlewares_agree (fuel : nat) (c : Context) :
  (∀ next, GzipMiddleware next c = CompressionMiddleware next c) ∧
  Next fuel (on_compression c) = defer on_compression (Next fuel c) ∧
  outcome_trace (Next fuel (on_compression c)) = outcome_trace (Next fuel c).
Proof.
  assert (Next fuel (on_compression c) = defer on_compression (Next fuel c))
    as H by apply (Next_loop_on_compression fuel (incr_index c)).
  split_and!; [|done|].
  - intros next. unfold GzipMiddleware, CompressionMiddleware.
    by destruct (Contains _ _).
  - rewrite H. by destruct (Next fuel c).
Qed.

(** ** The admission gate drains *)






(** ** The content type under compression *)

Section ContentTypeFacts.
Variable DetectContentType : string → string.

Lemma gzipWriter_Write_other b h k :
  k ≠ "Content-Type" →
  gzipWriter_Write DetectContentType b h !! k = h !! k.
Proof.
  intros Hk. unfold gzipWriter_Write, Header_Set.
  destruct (String.eqb _ _); [|done]. by rewrite lookup_insert_ne.
Qed.

Lemma gzipWriter_Write_set b h :
  Header_Get h "Content-Type" ≠ "" →
  gzipWriter_Write DetectContentType b h = h.
Proof.
  intros Hne. unfold gzipWriter_Write.
  destruct (String.eqb_spec (Header_Get h "Content-Type") ""); done.
Qed.

Lemma gzipWriter_Writes_set bs : ∀ h,
  Header_Get h "Content-Type" ≠ "" →
  gzipWriter_Writes DetectContentType bs h = h.
Proof.
  induction bs as [|b bs IH]; intros h Hne; [done|].
  unfold gzipWriter_Writes in *. simpl. rewrite gzipWriter_Write_set by done.
  by apply IH.
Qed.

Lemma gzipWriter_Writes_other bs k : ∀ h,
  k ≠ "Content-Type" →
  gzipWriter_Writes DetectContentType bs h !! k = h !! k.
Proof.
  induction bs as [|b bs IH]; intros h Hk; [done|].
  unfold gzipWriter_Writes in *. simpl. rewrite IH by done.
  by apply gzipWriter_Write_other.
Qed.
End ContentTypeFacts.

(** X12: writes through a [gzipWriter], with a [DetectContentType] that
    never returns the empty string (as [net/http]'s): the first write
    decides the content type.  A type set before it is never
    overwritten; without one the type is what [DetectContentType] makes
    of the bytes of the first write, whatever is written afterwards;
    and no other header is touched. *)
Theorem first_write_sets_content_type
    (DetectContentType : string → string) (h : Header) (b : string)
    (bs : list string) :
  (∀ x, DetectContentType x ≠ "") →
  Header_Get (gzipWriter_Writes DetectContentType (b :: bs) h) "Content-Type"
  = (if String.eqb (Header_Get h "Content-Type") "" then DetectContentType b
     else Header_Get h "Content-Type") ∧
  ∀ k, k ≠ "Content-Type" →
       gzipWriter_Writes DetectContentType (b :: bs) h !! k = h !! k.
Proof.
  intros Hd. split; [|intros k Hk; by apply gzipWriter_Writes_other].
  change (gzipWriter_Writes DetectContentType (b :: bs) h)
    with (gzipWriter_Writes DetectContentType bs
            (gzipWriter_Write DetectContentType b h)).
  rewrite gzipWriter_Writes_set.
  - unfold gzipWriter_Write.
    destruct (String.eqb _ _); [|done].
    unfold Header_Get, Header_Set. by rewrite lookup_insert_eq.
  - unfold gzipWriter_Write.
    destruct (String.eqb_spec (Header_Get h "Content-Type") "") as [He|Hne];
      [|done].
    unfold Header_Get, Header_Set. rewrite lookup_insert_eq. simpl. apply Hd.
Qed.

Lemma first_write_sets_content_type_witness :
  (∀ x : string, (λ _ : string, "application/octet-stream") x ≠ "") ∧
  (Header_Get (gzipWriter_Writes (λ _, "application/octet-stream")
                 ["<html>"; "more"] {[ "Content-Encoding" := "gzip" ]})
     "Content-Type"
   = (if String.eqb (Header_Get {[ "Content-Encoding" := "gzip" ]}
                       "Content-Type") ""
      then "application/octet-stream"
      else Header_Get {[ "Content-Encoding" := "gzip" ]} "Content-Type") ∧
   ∀ k, k ≠ "Content-Type" →
        gzipWriter_Writes (λ _, "application/octet-stream") ["<html>"; "more"]
          {[ "Content-Encoding" := "gzip" ]} !! k
        = ({[ "Content-Encoding" := "gzip" ]} : Header) !! k).
Proof.
  assert (∀ x : string, (λ _ : string, "application/octet-stream") x ≠ "")
    as H by done.
  split; [exact H|].
  exact (first_write_sets_content_type (λ _, "application/octet-stream")
           {[ "Content-Encoding" := "gzip" ]} "<html>" ["more"] H).
Defined.

(** ** The response recorder *)

Lemma wrap_int_add_l a b : wrap_int (wrap_int a + b) = wrap_int (a + b).
Proof.
  unfold wrap_int. f_equal.
  replace ((a + 2 ^ 63) mod 2 ^ 64 - 2 ^ 63 + b + 2 ^ 63)
    with ((a + 2 ^ 63) mod 2 ^ 64 + b) by lia.
  rewrite Z.add_mod_idemp_l by lia. f_equal. lia.
Qed.

Lemma headers_passed_snoc ws w :
  headers_passed (ws ++ [w])
  = headers_passed ws ++ match w with WWriteHeader s => [s] | _ => [] end.
Proof.
  unfold headers_passed. rewrite omap_app. simpl. by destruct w.
Qed.

Lemma record_spec cs : ∀ h,
  headers_passed (r_writer h) = option_list (r_status h) →
  in_int (r_size h) →
  match record cs h with
  | RecOk h' =>
      (length (option_list (r_status h) ++ header_calls cs) ≤ 1)%nat ∧
      r_status h' = head (option_list (r_status h) ++ header_calls cs) ∧
      headers_passed (r_writer h') = option_list (r_status h') ∧
      r_size h'
      = wrap_int (r_size h + counted (bool_decide (is_Some (r_status h))) cs)
  | RecPanic v h' =>
      (2 ≤ length (option_list (r_status h) ++ header_calls cs))%nat ∧
      v = "the status code has already set" ∧
      r_status h' = head (option_list (r_status h) ++ header_calls cs) ∧
      headers_passed (r_writer h') = option_list (r_status h') ∧
      r_size h'
      = wrap_int (r_size h + counted (bool_decide (is_Some (r_status h))) cs)
  end.
Proof.
  induction cs as [|[b n|code] cs IH]; intros h Hh Hsz.
  - simpl. rewrite app_nil_r, Z.add_0_r, wrap_int_id by done.
    destruct (r_status h) eqn:Hs; simpl; split_and!; try done; try lia.
  - simpl.
    specialize (IH (httpResponseRecorder_Write b n h)). simpl in IH.
    rewrite headers_passed_snoc, app_nil_r in IH.
    specialize (IH Hh (wrap_int_in_int _)).
    rewrite wrap_int_add_l, <- Z.add_assoc in IH. exact IH.
  - simpl. unfold httpResponseRecorder_WriteHeader.
    destruct (r_status h) as [s0|] eqn:Hs; simpl.
    + rewrite Z.add_0_r, wrap_int_id, Hs by done. split_and!; try done. lia.
    + specialize (IH {| r_writer := r_writer h ++ [WWriteHeader code];
                        r_status := Some code; r_size := r_size h |}).
      simpl in IH. rewrite headers_passed_snoc, Hh in IH. simpl in IH.
      exact (IH eq_refl Hsz).
Qed.

(** X13: the recorder of the logging middleware, over everything a handler
    can do with it: the status is that of the first [WriteHeader] and
    the wrapped writer is passed that call and no other [WriteHeader];
    the second [WriteHeader] panics, with [the status code has already
    set], before anything reaches the wrapped writer, and that is the
    only panic; the size is the sum, as an [int], of the counts the
    wrapped writer returned for the writes made. *)
Theorem recorder_takes_one_status (cs : list rcall) :
  match record cs new_recorder with
  | RecOk h =>
      (length (header_calls cs) ≤ 1)%nat ∧
      r_status h = head (header_calls cs) ∧
      headers_passed (r_writer h) = option_list (head (header_calls cs)) ∧
      r_size h = wrap_int (counted false cs)
  | RecPanic v h =>
      (2 ≤ length (header_calls cs))%nat ∧
      v = "the status code has already set" ∧
      r_status h = head (header_calls cs) ∧
      headers_passed (r_writer h) = option_list (head (header_calls cs)) ∧
      r_size h = wrap_int (counted false cs)
  end.
Proof.
  pose proof (record_spec cs new_recorder eq_refl) as H. simpl in H.
  assert (in_int 0) as H0 by (unfold in_int, int_min, int_max; lia).
  specialize (H H0).
  destruct (record cs new_recorder) as [h|v h].
  - destruct H as (? & Hs & Hw & ?). rewrite Hw, Hs. done.
  - destruct H as (? & ? & Hs & Hw & ?). rewrite Hw, Hs. done.
Qed.

(** ** The user agent *)

Lemma Contains_unfold s u :
  Contains s u
  = String.prefix u s || match s with
                         | EmptyString => false
                         | String _ s' => Contains s' u
                         end.
Proof. by destruct s. Qed.

Lemma prefix_trans u : ∀ t s,
  String.prefix u t = true → String.prefix t s = true → String.prefix u s = true.
Proof.
  induction u as [|a u IH]; intros t s; [by destruct s|].
  destruct t as [|b t]; [done|]. destruct s as [|c s]; [done|]. simpl.
  destruct (Ascii.ascii_dec a b) as [->|]; [|done].
  destruct (Ascii.ascii_dec b c) as [->|]; [|done].
  destruct (Ascii.ascii_dec c c); [|done]. apply IH.
Qed.

Lemma Contains_prefix t : ∀ s u,
  String.prefix t s = true → Contains t u = true → Contains s u = true.
Proof.
  induction t as [|b t IH]; intros s u Hp.
  - rewrite Contains_unfold, orb_false_r. intros Hu.
    rewrite Contains_unfold. by rewrite (prefix_trans _ _ _ Hu Hp).
  - rewrite (Contains_unfold (String b t)).
    intros [Hu|Hu]%orb_prop.
    + rewrite Contains_unfold. by rewrite (prefix_trans _ _ _ Hu Hp).
    + destruct s as [|c s]; [done|]. simpl in Hp.
      destruct (Ascii.ascii_dec b c); [|done].
      rewrite Contains_unfold. rewrite (IH s u Hp Hu). apply orb_true_r.
Qed.

(** A string that holds [t] holds what [t] holds. *)
Lemma Contains_trans s : ∀ t u,
  Contains s t = true → Contains t u = true → Contains s u = true.
Proof.
  induction s as [|c s IH]; intros t u.
  - rewrite Contains_unfold, orb_false_r. intros Hp. by apply Contains_prefix.
  - rewrite (Contains_unfold (String c s)). intros [Hp|Hs]%orb_prop Hu.
    + by eapply Contains_prefix.
    + rewrite Contains_unfold. rewrite (IH t u Hs Hu). apply orb_true_r.
Qed.

(** X14: Of the twenty-three patterns of [detectBot] nine decide: a user
    agent is taken for a bot exactly when its lower-case form holds one
    of [bot], [crawler], [spider], [scraper], [curl], [wget], [slurp],
    [facebookexternalhit] and [whatsapp], each of the other fourteen
    patterns holding one of these. *)
Theorem detectBot_core_patterns (ToLower : string → string) (ua : string) :
  detectBot ToLower ua = existsb (Contains (ToLower ua)) core_patterns.
Proof.
  unfold detectBot. apply eq_true_iff_eq. rewrite !existsb_exists. split.
  - intros (t & Ht & Hc).
    assert (forallb (λ t, existsb (Contains t) core_patterns) botPatterns = true)
      as Hall by (vm_compute; reflexivity).
    rewrite forallb_forall in Hall.
    destruct (proj1 (existsb_exists _ _) (Hall t Ht)) as (q & Hq & Htq).
    exists q. split; [done|]. by eapply Contains_trans.
  - intros (q & Hq & Hc).
    assert (forallb (λ q, existsb (String.eqb q) botPatterns) core_patterns = true)
      as Hall by (vm_compute; reflexivity).
    rewrite forallb_forall in Hall.
    destruct (proj1 (existsb_exists _ _) (Hall q Hq)) as (t & Ht & Hqt).
    apply String.eqb_eq in Hqt as ->. by exists t.
Qed.



Lemma substring_skip n : ∀ m s,
  String.substring n m s = String.substring 0 m (skip n s).
Proof.
  induction n as [|n IH]; intros m s; [done|].
  destruct s as [|c s]; simpl; [by destruct m|]. apply IH.
Qed.

Lemma scan_version_spec rest : ∀ e,
  ∃ k : nat, scan_version rest e = e + Z.of_nat k ∧
             all_bytes version_byte (String.substring 0 k rest) = true.
Proof.
  induction rest as [|c rest IH]; intros e; simpl.
  - exists 0%nat. split; [lia|done].
  - destruct (version_byte c) eqn:Hc.
    + destruct (IH (e + 1)) as (k & Hk & Hall). exists (S k).
      split; [lia|]. simpl. by rewrite Hc.
    + exists 0%nat. split; [lia|done].
Qed.

Lemma ReplaceAll_byte_version s :
  all_bytes version_byte s = true →
  all_bytes digit_or_dot (ReplaceAll_byte s "_" ".") = true.
Proof.
  induction s as [|c s IH]; [done|]. simpl.
  intros [Hc Hs]%andb_prop. rewrite (IH Hs), andb_true_r.
  destruct (Ascii.eqb c "_") eqn:Hu; [done|].
  unfold version_byte in Hc. unfold digit_or_dot.
  by rewrite Hu, orb_false_r in Hc.
Qed.

Lemma extractTokenVersion_bytes token ua :
  all_bytes digit_or_dot (extractTokenVersion token ua) = true.
Proof.
  unfold extractTokenVersion. destruct (_ =? -1); [done|].
  set (start := Index ua token + Z.of_nat (String.length token)).
  destruct (scan_version_spec (skip (Z.to_nat start) ua) start)
    as (k & Hk & Hall).
  rewrite Hk. destruct (_ >? _); [|done].
  apply ReplaceAll_byte_version.
  replace (Z.to_nat (start + Z.of_nat k - start)) with k by lia.
  by rewrite substring_skip.
Qed.

Lemma first_version_bytes tokens ua :
  all_bytes digit_or_dot (first_version tokens ua) = true.
Proof.
  induction tokens as [|t tokens IH]; [done|]. simpl.
  destruct (negb _); [apply extractTokenVersion_bytes|done].
Qed.

(** X16: the version the logging middleware reports holds digits and dots
    only, whatever the user agent: every way through
    [extractVersionForBrowser] and [extractAnyVersion] ends in
    [extractTokenVersion], which takes the run of digits, dots and
    underscores behind a token and turns the underscores into dots. *)
Theorem version_is_digits_and_dots (ua token : string) :
  all_bytes digit_or_dot (detectBrowserAndVersion ua).2 = true ∧
  all_bytes digit_or_dot (extractAnyVersion ua) = true ∧
  all_bytes digit_or_dot (extractTokenVersion token ua) = true.
Proof.
  split_and!; [|apply first_version_bytes|apply extractTokenVersion_bytes].
  unfold detectBrowserAndVersion. simpl.
  destruct (String.eqb (extractVersionForBrowser _ _) "") eqn:He;
    [apply first_version_bytes|].
  unfold extractVersionForBrowser in *.
  repeat (destruct (String.eqb (detectBrowser ua) _);
          [try destruct (negb _); apply extractTokenVersion_bytes|]).
  done.
Qed.

Lemma prefix_append t s : String.prefix t (t ++ s) = true.
Proof.
  induction t as [|c t IH]; simpl; [by destruct s|].
  by destruct (Ascii.ascii_dec c c).
Qed.

Lemma skip_append t s : skip (String.length t) (t ++ s) = s.
Proof. induction t as [|c t IH]; simpl; [done|]. apply IH. Qed.

Lemma skip_add n : ∀ m s, skip (n + m) s = skip m (skip n s).
Proof.
  induction n as [|n IH]; intros m s; [done|].
  destruct s as [|c s]; simpl; [by destruct m|]. apply IH.
Qed.

Lemma substring_append v s :
  String.substring 0 (String.length v) (v ++ s) = v.
Proof.
  induction v as [|c v IH]; simpl; [by destruct s|]. by rewrite IH.
Qed.

Lemma scan_version_run v rest : ∀ e,
  all_bytes version_byte v = true →
  all_bytes version_byte (String.substring 0 1 rest) = false ∨ rest = "" →
  scan_version (v ++ rest) e = e + Z.of_nat (String.length v).
Proof.
  induction v as [|c v IH]; intros e Hv Hrest.
  - simpl. rewrite Z.add_0_r. destruct rest as [|c rest]; [done|]. simpl.
    destruct Hrest as [Hr|Hr]; [|done]. simpl in Hr.
    destruct (version_byte c); [|done]. by destruct rest.
  - simpl in *. apply andb_prop in Hv as [Hc Hv]. rewrite Hc.
    rewrite IH by done. lia.
Qed.

(** X17: what [extractTokenVersion] returns: when the first occurrence of
    the token in the user agent is followed by a non-empty run [v] of
    digits, dots and underscores, and then by another byte or by the
    end, the result is [v] with every underscore turned into a dot. *)
Theorem extractTokenVersion_reads_the_run (pre token v rest : string) :
  Index (pre ++ token ++ v ++ rest) token = Z.of_nat (String.length pre) →
  v ≠ "" →
  all_bytes version_byte v = true →
  all_bytes version_byte (String.substring 0 1 rest) = false ∨ rest = "" →
  extractTokenVersion token (pre ++ token ++ v ++ rest)
  = ReplaceAll_byte v "_" ".".
Proof.
  intros Hidx Hne Hv Hrest. unfold extractTokenVersion. rewrite Hidx.
  destruct (Z.eqb_spec (Z.of_nat (String.length pre)) (-1)) as [|_]; [lia|].
  replace (Z.to_nat (Z.of_nat (String.length pre)
                     + Z.of_nat (String.length token)))
    with (String.length pre + String.length token)%nat by lia.
  rewrite substring_skip, skip_add, !skip_append.
  rewrite scan_version_run by done.
  assert (0 < String.length v)%nat as Hlen by (destruct v; [done|simpl; lia]).
  destruct (Z.gtb_spec
              (Z.of_nat (String.length pre) + Z.of_nat (String.length token)
               + Z.of_nat (String.length v))
              (Z.of_nat (String.length pre) + Z.of_nat (String.length token)))
    as [_|]; [|lia].
  replace (Z.to_nat _) with (String.length v) by lia.
  by rewrite substring_append.
Qed.

Lemma extractTokenVersion_reads_the_run_witness :
  Index ("Mozilla/5.0 (" ++ "Mac OS X " ++ "10_15_7" ++ ") Safari") "Mac OS X "
  = Z.of_nat (String.length "Mozilla/5.0 (") ∧
  "10_15_7" ≠ "" ∧
  all_bytes version_byte "10_15_7" = true ∧
  (all_bytes version_byte (String.substring 0 1 ") Safari") = false
   ∨ ") Safari" = "") ∧
  extractTokenVersion "Mac OS X "
    ("Mozilla/5.0 (" ++ "Mac OS X " ++ "10_15_7" ++ ") Safari")
  = ReplaceAll_byte "10_15_7" "_" ".".
Proof.
  assert (Index ("Mozilla/5.0 (" ++ "Mac OS X " ++ "10_15_7" ++ ") Safari")
            "Mac OS X " = Z.of_nat (String.length "Mozilla/5.0 (")) as H1
      by (vm_compute; reflexivity).
  assert ("10_15_7" ≠ "") as H2 by done.
  assert (all_bytes version_byte "10_15_7" = true) as H3
      by (vm_compute; reflexivity).
  assert (all_bytes version_byte (String.substring 0 1 ") Safari") = false
          ∨ ") Safari" = "") as H4 by (left; vm_compute; reflexivity).
  split; [exact H1|]. split; [exact H2|]. split; [exact H3|].
  split; [exact H4|].
  exact (extractTokenVersion_reads_the_run "Mozilla/5.0 (" "Mac OS X "
           "10_15_7" ") Safari" H1 H2 H3 H4).
Defined.
